(** * ServiceNow incident notes generator: extraction and rendering

    A shallow embedding of [ServiceNowNoteGenerator.tsx]: the field extractor
    [parseInput], the template renderer [buildFrenchTemplates] and the two
    text transforms [simpleTranslate] and [libreTranslate].

    JavaScript strings are sequences of UTF-16 code units; they are modelled
    as [list N].  Regular expressions are kept as the pattern text the source
    writes, parsed into a syntax tree and run by a backtracking matcher that
    returns its successes in priority order. *)

From Stdlib Require Import List NArith Ascii String Bool Arith Lia.
From Stdlib Require Import DecimalString.
From Stdlib Require DecimalNat DecimalFacts.

Set Warnings "-register-all".

Import ListNotations.

Local Open Scope N_scope.

(** ** JavaScript strings *)

Definition jsstring := list N.

Fixpoint bytes_of (s : string) : list N :=
  match s with
  | EmptyString => []
  | String a t => N_of_ascii a :: bytes_of t
  end.

(** Source literals are UTF-8 text; [utf16] turns the bytes into the UTF-16
    code units a JavaScript engine holds for the same literal. *)
Fixpoint utf16 (bs : list N) : jsstring :=
  match bs with
  | [] => []
  | b0 :: t =>
    if b0 <? 0x80 then b0 :: utf16 t
    else if b0 <? 0xE0 then
      match t with
      | b1 :: t1 => ((b0 mod 32) * 64 + b1 mod 64) :: utf16 t1
      | _ => []
      end
    else if b0 <? 0xF0 then
      match t with
      | b1 :: b2 :: t2 =>
        ((b0 mod 16) * 4096 + (b1 mod 64) * 64 + b2 mod 64) :: utf16 t2
      | _ => []
      end
    else
      match t with
      | b1 :: b2 :: b3 :: t3 =>
        let cp := (b0 mod 8) * 262144 + (b1 mod 64) * 4096
                  + (b2 mod 64) * 64 + b3 mod 64 in
        let v := cp - 0x10000 in
        (0xD800 + v / 1024) :: (0xDC00 + v mod 1024) :: utf16 t3
      | _ => []
      end
  end.

Definition js (s : string) : jsstring := utf16 (bytes_of s).

Definition NL : N := 10.

(** [WhiteSpace] and [LineTerminator] of ECMAScript: what [\s] matches and
    what [String.prototype.trim] strips. *)
Definition is_space (c : N) : bool :=
  (c =? 9) || (c =? 10) || (c =? 11) || (c =? 12) || (c =? 13) || (c =? 32)
  || (c =? 0xA0) || (c =? 0x1680) || ((0x2000 <=? c) && (c <=? 0x200A))
  || (c =? 0x2028) || (c =? 0x2029) || (c =? 0x202F) || (c =? 0x205F)
  || (c =? 0x3000) || (c =? 0xFEFF).

Definition is_digit (c : N) : bool := (48 <=? c) && (c <=? 57).

Definition is_upper (c : N) : bool := (65 <=? c) && (c <=? 90).
Definition is_lower (c : N) : bool := (97 <=? c) && (c <=? 122).

(** [\w]: ASCII letters, digits and underscore. *)
Definition is_word (c : N) : bool :=
  is_upper c || is_lower c || is_digit c || (c =? 95).

Fixpoint trimStart (s : jsstring) : jsstring :=
  match s with
  | c :: t => if is_space c then trimStart t else s
  | [] => []
  end.

Definition trimEnd (s : jsstring) : jsstring := rev (trimStart (rev s)).

Definition trim (s : jsstring) : jsstring := trimEnd (trimStart s).

(** [Boolean(s)] for a string. *)
Definition nonempty (s : jsstring) : bool :=
  match s with [] => false | _ :: _ => true end.

(** [Array.prototype.join]. *)
Fixpoint join (sep : jsstring) (l : list jsstring) : jsstring :=
  match l with
  | [] => []
  | [x] => x
  | x :: t => x ++ sep ++ join sep t
  end.

(** [String.prototype.slice(0, n)] for a non-negative [n]. *)
Definition slice0 (n : nat) (s : jsstring) : jsstring := firstn n s.

Definition eqs (a b : jsstring) : bool :=
  if list_eq_dec N.eq_dec a b then true else false.

(** ** Regular expressions *)

Module RegExp.

Inductive citem :=
| CChar (c : N)
| CRange (lo hi : N)
| CSpace | CNotSpace
| CDigit | CNotDigit
| CWord | CNotWord.

Inductive regex :=
| Empty
| Char (c : N)
| Dot
| Class (neg : bool) (items : list citem)
| Bol
| Eol
| WordB
| NotWordB
| Seq (a b : regex)
| Alt (a b : regex)
| Star (a : regex)
| Plus (a : regex)
| Opt (a : regex)
| Group (n : nat) (a : regex).

(** *** Pattern text to syntax tree

    Follows the ECMAScript grammar: a Disjunction is Alternatives separated
    by [|], an Alternative is a sequence of Terms, a Term is an assertion or
    an Atom with an optional quantifier.  Capture groups are numbered by
    their opening parenthesis.  Syntax the program never writes (braces,
    lazy quantifiers, look-around, back-references, named groups) is
    refused. *)

Definition ch (a : ascii) : N := N_of_ascii a.

Definition escape_item (c : N) : option citem :=
  if c =? ch "s" then Some CSpace
  else if c =? ch "S" then Some CNotSpace
  else if c =? ch "d" then Some CDigit
  else if c =? ch "D" then Some CNotDigit
  else if c =? ch "w" then Some CWord
  else if c =? ch "W" then Some CNotWord
  else if c =? ch "n" then Some (CChar 10)
  else if c =? ch "r" then Some (CChar 13)
  else if c =? ch "t" then Some (CChar 9)
  else if is_upper c || is_lower c || is_digit c then None
  else Some (CChar c).

(** The items of a character class, after the opening bracket (and the
    optional caret) up to the closing bracket. *)
Fixpoint parse_class (s : jsstring) (acc : list citem)
  : option (list citem * jsstring) :=
  match s with
  | [] => None
  | c :: t =>
    if c =? ch "]" then Some (rev acc, t)
    else
      match c =? ch "\", t with
      | true, e :: t' =>
        match (if e =? ch "b" then Some (CChar 8) else escape_item e) with
        | Some it => parse_class t' (it :: acc)
        | None => None
        end
      | true, [] => None
      | false, d :: hi :: t' =>
        if (d =? ch "-") && negb (hi =? ch "]") && negb (hi =? ch "\")
        then parse_class t' (CRange c hi :: acc)
        else parse_class t (CChar c :: acc)
      | false, _ => parse_class t (CChar c :: acc)
      end
  end.

Definition starts_quantifier (s : jsstring) : bool :=
  match s with
  | q :: _ => (q =? ch "?") || (q =? ch "*") || (q =? ch "+") || (q =? ch "{")
  | [] => false
  end.

(** An optional greedy quantifier after an atom. *)
Definition quantify (r : regex) (s : jsstring) : option (regex * jsstring) :=
  match s with
  | q :: t =>
    if q =? ch "{" then None
    else if (q =? ch "*") || (q =? ch "+") || (q =? ch "?") then
      if starts_quantifier t then None
      else Some (if q =? ch "*" then Star r
                 else if q =? ch "+" then Plus r else Opt r, t)
    else Some (r, s)
  | [] => Some (r, s)
  end.

(** [parse_disj fuel s g]: a Disjunction at the head of [s], with [g] the
    number of capture groups opened so far.  Returns the tree, the text left
    and the new group count. *)
Fixpoint parse_disj (fuel : nat) (s : jsstring) (g : nat)
  : option (regex * jsstring * nat) :=
  match fuel with
  | O => None
  | S k =>
    match parse_alt k s g with
    | Some (a, s1, g1) =>
      match s1 with
      | c :: t =>
        if c =? ch "|" then
          match parse_disj k t g1 with
          | Some (b, s2, g2) => Some (Alt a b, s2, g2)
          | None => None
          end
        else Some (a, s1, g1)
      | [] => Some (a, s1, g1)
      end
    | None => None
    end
  end

with parse_alt (fuel : nat) (s : jsstring) (g : nat)
  : option (regex * jsstring * nat) :=
  match fuel with
  | O => None
  | S k =>
    match s with
    | [] => Some (Empty, s, g)
    | c :: _ =>
      if (c =? ch "|") || (c =? ch ")") then Some (Empty, s, g)
      else
        match parse_term k s g with
        | Some (a, s1, g1) =>
          match parse_alt k s1 g1 with
          | Some (b, s2, g2) => Some (Seq a b, s2, g2)
          | None => None
          end
        | None => None
        end
    end
  end

with parse_term (fuel : nat) (s : jsstring) (g : nat)
  : option (regex * jsstring * nat) :=
  let quantified (r : regex) (t : jsstring) (g' : nat) :=
    match quantify r t with
    | Some (q, t') => Some (q, t', g')
    | None => None
    end in
  match fuel with
  | O => None
  | S k =>
    match s with
    | [] => None
    | c :: t =>
      if c =? ch "^" then Some (Bol, t, g)
      else if c =? ch "$" then Some (Eol, t, g)
      else if c =? ch "." then quantified Dot t g
      else if (c =? ch "*") || (c =? ch "+") || (c =? ch "?")
              || (c =? ch "{") || (c =? ch "}") || (c =? ch "]") then None
      else if c =? ch "(" then
        match t with
        | q :: _ =>
          if q =? ch "?" then None
          else
            match parse_disj k t (S g) with
            | Some (a, r :: t', g') =>
              if r =? ch ")" then quantified (Group (S g) a) t' g' else None
            | _ => None
            end
        | [] => None
        end
      else if c =? ch "[" then
        match t with
        | n :: t' =>
          match (if n =? ch "^" then parse_class t' [] else parse_class t []) with
          | Some (items, t'') => quantified (Class (n =? ch "^") items) t'' g
          | None => None
          end
        | [] => None
        end
      else if c =? ch "\" then
        match t with
        | e :: t' =>
          if e =? ch "b" then Some (WordB, t', g)
          else if e =? ch "B" then Some (NotWordB, t', g)
          else
            match escape_item e with
            | Some (CChar x) => quantified (Char x) t' g
            | Some it => quantified (Class false [it]) t' g
            | None => None
            end
        | [] => None
        end
      else quantified (Char c) t g
    end
  end.

Definition parse (pattern : jsstring) : option regex :=
  match parse_disj (3 * List.length pattern + 3) pattern 0 with
  | Some (r, [], _) => Some r
  | _ => None
  end.

(** A regular-expression literal of the source: its text is known to parse
    (see [literals_parse]), so the fallback, a pattern that matches nothing,
    is never taken. *)
Definition literal (pattern : string) : regex :=
  match parse (js pattern) with
  | Some r => r
  | None => Class false []
  end.

(** *** Matching

    The matcher state is the position in the input: the code unit just
    before it (for [^] and [\b]), the text from it on, and the captures so
    far, most recent first. *)

Record mstate := MState {
  before : option N;
  rest : jsstring;
  caps : list (nat * jsstring)
}.

Definition other_case (c : N) : N :=
  if is_lower c then c - 32 else if is_upper c then c + 32 else c.

(** The characters with the same canonical form as [c] when the [i] flag is
    set.  Canonicalization is modelled on ASCII and taken as the identity
    elsewhere; the patterns of this program compare against ASCII characters
    and case-less sets only, where ECMAScript's rule (a character outside
    ASCII never folds to one inside) gives the same outcome. *)
Definition variants (ic : bool) (c : N) : list N :=
  if ic then [c; other_case c] else [c].

Definition item_has (it : citem) (c : N) : bool :=
  match it with
  | CChar p => p =? c
  | CRange lo hi => (lo <=? c) && (c <=? hi)
  | CSpace => is_space c
  | CNotSpace => negb (is_space c)
  | CDigit => is_digit c
  | CNotDigit => negb (is_digit c)
  | CWord => is_word c
  | CNotWord => negb (is_word c)
  end.

Definition class_has (ic neg : bool) (items : list citem) (c : N) : bool :=
  xorb neg (existsb (fun a => existsb (fun it => item_has it a) items)
                    (variants ic c)).

Definition is_line_terminator (c : N) : bool :=
  (c =? 10) || (c =? 13) || (c =? 0x2028) || (c =? 0x2029).

Definition word_before (st : mstate) : bool :=
  match before st with Some c => is_word c | None => false end.

Definition word_after (st : mstate) : bool :=
  match rest st with c :: _ => is_word c | [] => false end.

(** Consume one code unit when it satisfies [p]. *)
Definition one (p : N -> bool) (st : mstate) : list mstate :=
  match rest st with
  | c :: t => if p c then [MState (Some c) t (caps st)] else []
  | [] => []
  end.

Definition assert (b : bool) (st : mstate) : list mstate :=
  if b then [st] else [].

(** The text between two positions of the same input. *)
Definition consumed (st st' : mstate) : jsstring :=
  firstn (List.length (rest st) - List.length (rest st')) (rest st).

(** ECMAScript rejects an iteration of a quantified atom that matched the
    empty string. *)
Definition advanced (st st' : mstate) : bool :=
  (List.length (rest st') <? List.length (rest st))%nat.

(** Greedy repetition: one more iteration first, stopping here last.  Every
    kept iteration consumes input, so [fuel] = the length of the remaining
    text is never exhausted before the text is. *)
Fixpoint iter (step : mstate -> list mstate) (fuel : nat) (st : mstate)
  : list mstate :=
  match fuel with
  | O => [st]
  | S k => flat_map (iter step k) (filter (advanced st) (step st)) ++ [st]
  end.

Definition repeat (step : mstate -> list mstate) (st : mstate) : list mstate :=
  iter step (List.length (rest st)) st.

Definition set_cap (n : nat) (st st' : mstate) : mstate :=
  MState (before st') (rest st') ((n, consumed st st') :: caps st').

(** [m ic r st]: every way [r] matches at [st], in the order a backtracking
    engine tries them; the head is the match ECMAScript reports.  None of
    the program's patterns has a capture group under a quantifier, so the
    per-iteration reset of captures is not modelled. *)
Fixpoint m (ic : bool) (r : regex) (st : mstate) : list mstate :=
  match r with
  | Empty => [st]
  | Char c => one (class_has ic false [CChar c]) st
  | Dot => one (fun c => negb (is_line_terminator c)) st
  | Class neg items => one (class_has ic neg items) st
  | Bol => assert (match before st with None => true | Some _ => false end) st
  | Eol => assert (match rest st with [] => true | _ :: _ => false end) st
  | WordB => assert (xorb (word_before st) (word_after st)) st
  | NotWordB => assert (negb (xorb (word_before st) (word_after st))) st
  | Seq a b => flat_map (m ic b) (m ic a st)
  | Alt a b => m ic a st ++ m ic b st
  | Star a => repeat (m ic a) st
  | Plus a => flat_map (repeat (m ic a)) (m ic a st)
  | Opt a => filter (advanced st) (m ic a st) ++ [st]
  | Group n a => map (set_cap n st) (m ic a st)
  end.

Record match_result := MatchResult {
  index : nat;
  matched : jsstring;
  groups : list (nat * jsstring);
  after : jsstring
}.

(** [RegExp.prototype.exec] without the [g] and [y] flags: the first
    position, from the left, at which the pattern matches. *)
Fixpoint exec_from (ic : bool) (r : regex) (idx : nat) (prev : option N)
         (s : jsstring) : option match_result :=
  let st := MState prev s [] in
  match m ic r st with
  | st' :: _ => Some (MatchResult idx (consumed st st') (caps st') (rest st'))
  | [] =>
    match s with
    | [] => None
    | c :: t => exec_from ic r (S idx) (Some c) t
    end
  end.

Definition exec (ic : bool) (r : regex) (s : jsstring) : option match_result :=
  exec_from ic r 0 None s.

Fixpoint lookup (n : nat) (l : list (nat * jsstring)) : option jsstring :=
  match l with
  | [] => None
  | (k, v) :: t => if Nat.eqb k n then Some v else lookup n t
  end.

(** [match?.[n]]: capture [n] of an optional match, [None] for undefined. *)
Definition group (n : nat) (r : option match_result) : option jsstring :=
  match r with
  | Some mr => lookup n (groups mr)
  | None => None
  end.

Definition last_of (prev : option N) (s : jsstring) : option N :=
  match rev s with c :: _ => Some c | [] => prev end.

(** [String.prototype.replace] with a pattern without the [g] flag: the
    first match is replaced.  The replacement is a function of the match; a
    replacement string without [$] is the constant function. *)
Definition replace_first (ic : bool) (r : regex)
           (f : match_result -> jsstring) (s : jsstring) : jsstring :=
  match exec ic r s with
  | Some mr => firstn (index mr) s ++ f mr ++ after mr
  | None => s
  end.

(** With the [g] flag: every match, left to right, each search starting
    where the previous match ended (one code unit further after an empty
    match). *)
Fixpoint replace_loop (fuel : nat) (ic : bool) (r : regex)
         (f : match_result -> jsstring) (prev : option N) (s : jsstring)
  : jsstring :=
  match fuel with
  | O => s
  | S k =>
    match exec_from ic r 0 prev s with
    | None => s
    | Some mr =>
      firstn (index mr) s ++ f mr ++
      match matched mr, after mr with
      | [], c :: t => c :: replace_loop k ic r f (Some c) t
      | [], [] => []
      | _ :: _, t =>
        replace_loop k ic r f (last_of prev (firstn (index mr) s ++ matched mr)) t
      end
    end
  end.

Definition replace_all (ic : bool) (r : regex)
           (f : match_result -> jsstring) (s : jsstring) : jsstring :=
  replace_loop (S (List.length s)) ic r f None s.

(** [String.prototype.split] with a pattern that has no capture group: at
    each position [q] past the last separator the pattern is tried at [q]
    only; a match that ends at the start [p] of the current piece is
    skipped.  [piece] is the text from [p] to [q], reversed. *)
Fixpoint split_loop (fuel : nat) (ic : bool) (r : regex) (prev : option N)
         (piece : jsstring) (s : jsstring) : list jsstring :=
  match fuel with
  | O => [rev piece ++ s]
  | S k =>
    match s with
    | [] => [rev piece]
    | c :: t =>
      match m ic r (MState prev s []) with
      | st' :: _ =>
        match consumed (MState prev s []) st', piece with
        | [], [] => split_loop k ic r (Some c) [c] t
        | w, _ => rev piece :: split_loop k ic r (last_of prev w) [] (rest st')
        end
      | [] => split_loop k ic r (Some c) (c :: piece) t
      end
    end
  end.

Definition split (ic : bool) (r : regex) (s : jsstring) : list jsstring :=
  match s with
  | [] => match m ic r (MState None [] []) with
          | _ :: _ => []
          | [] => [[]]
          end
  | _ :: _ => split_loop (2 * List.length s + 1) ic r None [] s
  end.

End RegExp.

Import RegExp.

(** ** The offline transform *)

(** [GLOSSARY], in source order. *)
Definition GLOSSARY : list (jsstring * jsstring) :=
  [ (js "incident", js "incident");
    (js "outage", js "panne");
    (js "degraded", js "dégradée");
    (js "performance", js "performance");
    (js "user", js "utilisateur");
    (js "users", js "utilisateurs");
    (js "customer", js "client");
    (js "customers", js "clients");
    (js "error", js "erreur");
    (js "failure", js "défaillance");
    (js "login", js "connexion");
    (js "authentication", js "authentification");
    (js "authorization", js "autorisation");
    (js "payment", js "paiement");
    (js "database", js "base de données");
    (js "server", js "serveur");
    (js "network", js "réseau");
    (js "latency", js "latence");
    (js "timeout", js "dépassement de délai");
    (js "retry", js "réessai");
    (js "restarted", js "redémarré");
    (js "restart", js "redémarrer");
    (js "cache", js "cache");
    (js "cleared", js "vidé");
    (js "escalated", js "escaladé");
    (js "escalation", js "escalade");
    (js "root", js "racine");
    (js "cause", js "cause");
    (js "suspected", js "suspectée");
    (js "temporary", js "temporaire");
    (js "workaround", js "solution de contournement");
    (js "fix", js "correctif");
    (js "deployed", js "déployé");
    (js "monitoring", js "surveillance");
    (js "logs", js "journaux");
    (js "alert", js "alerte");
    (js "alerts", js "alertes");
    (js "region", js "région");
    (js "europe", js "Europe");
    (js "us", js "États-Unis");
    (js "production", js "production");
    (js "staging", js "pré-production");
    (js "severity", js "sévérité");
    (js "high", js "élevée");
    (js "medium", js "moyenne");
    (js "low", js "faible") ].

Fixpoint own_property (k : jsstring) (o : list (jsstring * jsstring))
  : option jsstring :=
  match o with
  | [] => None
  | (k', v) :: t => if eqs k' k then Some v else own_property k t
  end.

(** [toLowerCase] on the ASCII letters; it is applied to matches of
    [[A-Za-z']+] only. *)
Definition toLowerCase (s : jsstring) : jsstring :=
  map (fun c => if is_upper c then c + 32 else c) s.

Section Translate.

(** [GLOSSARY] is a plain object, so [GLOSSARY[k]] also sees what it
    inherits from [Object.prototype].  Of the inherited names only
    [constructor] is a lower-case run of letters; the callback then returns
    the [Object] function and [replace] inserts its source text, which the
    engine chooses. *)
Variable object_constructor_text : jsstring.

Definition glossary_get (k : jsstring) : option jsstring :=
  match own_property k GLOSSARY with
  | Some v => Some v
  | None => if eqs k (js "constructor") then Some object_constructor_text
            else None
  end.

Definition simpleTranslate (text : jsstring) : jsstring :=
  let replaced :=
    replace_all false (literal "\bSLA\b") (fun _ => js "SLA")
      (replace_all false (literal "\bETA\b") (fun _ => js "ETA")
        (replace_all false (literal "\b([A-Za-z']+)\b")
           (fun mr => match glossary_get (toLowerCase (matched mr)) with
                      | Some v => v
                      | None => matched mr
                      end)
           text)) in
  js "⟦Brouillon – traduction approximative⟧ " ++ replaced.

(** ** The remote transform *)

Inductive json :=
| JNull
| JBool (b : bool)
| JNumber (digits : jsstring)
| JString (s : jsstring)
| JArray (items : list json)
| JObject (members : list (jsstring * json)).

(** The object given to [JSON.stringify] as the request body. *)
Record translate_body := TranslateBody {
  q : jsstring;
  source : jsstring;
  target : jsstring;
  format : jsstring
}.

Record request := Request {
  url : jsstring;
  method : jsstring;
  content_type : jsstring;
  body : translate_body
}.

(** What the code reads of a response; [None] is a rejected promise. *)
Record response := Response {
  status : N;
  res_text : option jsstring;
  res_json : option json
}.

Definition ok (r : response) : bool := (200 <=? status r) && (status r <=? 299).

(** A computation that returns or throws. *)
Inductive outcome (A : Type) :=
| Returned (a : A)
| Thrown (e : jsstring).
Arguments Returned {A} a.
Arguments Thrown {A} e.

Definition bind {A B} (x : outcome A) (k : A -> outcome B) : outcome B :=
  match x with
  | Returned a => k a
  | Thrown e => Thrown e
  end.

Definition try_catch {A} (body : outcome A) (handler : outcome A) : outcome A :=
  match body with
  | Returned a => Returned a
  | Thrown _ => handler
  end.

Notation "x <- c ;; k" := (bind c (fun x => k))
  (at level 61, c at next level, right associativity).

Definition awaited {A} (p : option A) : outcome A :=
  match p with
  | Some a => Returned a
  | None => Thrown (js "rejected")
  end.

(** The server and the network: what [fetch] does with a request. *)
Variable fetch : request -> outcome response.

(** The last member with the name wins, as [JSON.parse] builds objects. *)
Fixpoint member (k : jsstring) (l : list (jsstring * json)) : option json :=
  match l with
  | [] => None
  | (k', v) :: t =>
    match member k t with
    | Some v' => Some v'
    | None => if eqs k' k then Some v else None
    end
  end.

(** [data?.translatedText ?? text]. *)
Definition translated_or (data : json) (text : jsstring) : json :=
  match data with
  | JObject l =>
    match member (js "translatedText") l with
    | Some JNull | None => JString text
    | Some v => v
    end
  | _ => JString text
  end.

Definition translate_request (text endpoint : jsstring) : request :=
  let url := replace_first false (literal "\/$") (fun _ => []) endpoint
             ++ js "/translate" in
  Request url (js "POST") (js "application/json")
          (TranslateBody text (js "en") (js "fr") (js "text")).

Definition libreTranslate (text endpoint : jsstring) : outcome json :=
  try_catch
    (res <- fetch (translate_request text endpoint) ;;
     if negb (ok res)
     then (t <- awaited (res_text res) ;; Thrown t)
     else (data <- awaited (res_json res) ;;
           Returned (translated_or data text)))
    (Returned (JString (simpleTranslate text))).

Inductive Provider := offline | libre.

Definition ensureFrench (text : jsstring) (provider : Provider)
           (endpoint : jsstring) : outcome json :=
  if negb (nonempty text) then Returned (JString [])
  else
    match provider with
    | libre =>
      if nonempty endpoint then libreTranslate text endpoint
      else Returned (JString (simpleTranslate text))
    | offline => Returned (JString (simpleTranslate text))
    end.

End Translate.

Arguments Returned {A} a.
Arguments Thrown {A} e.

(** ** Field extraction *)

(** The interface [Parsed]: every field is optional, [None] standing for
    [undefined].  [parseInput] sets them all. *)
Record Parsed := MkParsed {
  app : option jsstring;
  env : option jsstring;
  impact : option jsstring;
  urgency : option jsstring;
  steps : option (list jsstring);
  error : option jsstring;
  when : option jsstring;
  region : option jsstring;
  user : option jsstring;
  ticket : option jsstring;
  summary : option jsstring
}.

(** [x || ""] for an optional string. *)
Definition or_empty (o : option jsstring) : jsstring :=
  match o with Some s => s | None => [] end.

(** The text of the pattern [get] builds around a label. *)
Definition get_pattern (label : jsstring) : jsstring :=
  label ++ js "\s*[:=]\s*([^\n]+)".

(** [get]: [new RegExp] throws on text that is not a pattern; for the nine
    labels of [parseInput] it does not (see [field_patterns_parse]), and the
    model returns the empty string in the branch they never reach. *)
Definition get (text label : jsstring) : jsstring :=
  match parse (get_pattern label) with
  | Some re => trim (or_empty (group 1 (exec true re text)))
  | None => []
  end.

Definition strip_ordinal (s : jsstring) : jsstring :=
  trim (replace_first false (literal "^\s*(\d+\.|-)") (fun _ => []) s).

Definition parse_steps (text : jsstring) : list jsstring :=
  let stepsBlock :=
    or_empty (group 1 (exec true (literal "steps?\s*[:=]([\s\S]+)") text)) in
  filter nonempty
    (map strip_ordinal (split false (literal "\n|;|•|-") stepsBlock)).

Definition parseInput (raw : jsstring) : Parsed :=
  let text := trim raw in
  {| app := Some (get text (js "app|application|service|system"));
     env := Some (get text (js "env|environment"));
     impact := Some (get text (js "impact"));
     urgency := Some (get text (js "urgency|priority|prio|severity"));
     error := Some (get text (js "error|err|code"));
     when := Some (get text (js "when|since|time|started"));
     region := Some (get text (js "region|location"));
     user := Some (get text (js "user|requester|caller"));
     ticket := Some (get text (js "ticket|ref|id"));
     summary := Some text;
     steps := Some (parse_steps text) |}.

(** ** Template rendering *)

Record Rendered := MkRendered {
  titre : jsstring;
  description : jsstring;
  workNotes : jsstring;
  userComment : jsstring
}.

(** Truthiness of an optional string: neither undefined nor empty. *)
Definition truthy (o : option jsstring) : bool :=
  match o with
  | Some (_ :: _) => true
  | _ => false
  end.

(** An interpolated [${x}]. *)
Definition str (o : option jsstring) : jsstring :=
  match o with Some s => s | None => js "undefined" end.

(** [c ? s : null]. *)
Definition line_if (c : bool) (s : jsstring) : option jsstring :=
  if c then Some s else None.

(** [.filter(Boolean)] on an array of strings and nulls. *)
Definition compact (l : list (option jsstring)) : list jsstring :=
  flat_map (fun o => if truthy o then [or_empty o] else []) l.

Definition number_to_string (n : nat) : jsstring :=
  bytes_of (NilZero.string_of_uint (Nat.to_uint n)).

(** [a.map((s, i) => f(s, i))], from index [i]. *)
Fixpoint mapi {A B} (f : A -> nat -> B) (i : nat) (l : list A) : list B :=
  match l with
  | [] => []
  | x :: t => f x i :: mapi f (S i) t
  end.

Definition fallback_title : jsstring := js "Incident – détails à préciser".

Definition no_steps_line : jsstring := js "- Aucune étape fournie.".

Definition step_line (s : jsstring) (i : nat) : jsstring :=
  js "- Étape " ++ number_to_string (i + 1) ++ js ": " ++ s.

Definition titre_parts (p : Parsed) : list (option jsstring) :=
  [ line_if (truthy (app p)) (str (app p) ++ js ":");
    line_if (truthy (error p)) (str (error p));
    line_if (truthy (impact p)) (js "– impact " ++ str (impact p)) ].

Definition impact_line (p : Parsed) : jsstring :=
  js "Impact déclaré: " ++ str (impact p) ++ js ".".

Definition description_lines (p : Parsed) : list (option jsstring) :=
  [ Some (js "Contexte: "
          ++ match app p with
             | Some a => a
             | None => js "application non précisée"
             end
          ++ (if truthy (env p) then js " (env: " ++ str (env p) ++ js ")"
              else [])
          ++ js ".");
    line_if (truthy (when p)) (js "Début observé: " ++ str (when p) ++ js ".");
    line_if (truthy (region p))
            (js "Zone concernée: " ++ str (region p) ++ js ".");
    line_if (truthy (impact p)) (impact_line p);
    line_if (truthy (urgency p))
            (js "Priorité/Sévérité: " ++ str (urgency p) ++ js ".");
    line_if (truthy (error p))
            (js "Symptômes/erreur: " ++ str (error p) ++ js ".") ].

(** [p.steps?.length ? ... : ...]. *)
Definition steps_text (p : Parsed) : jsstring :=
  match steps p with
  | Some (s :: l) => join [NL] (mapi step_line 0 (s :: l))
  | _ => no_steps_line
  end.

Definition actions_block (p : Parsed) : jsstring :=
  js "Actions réalisées:" ++ [NL] ++ steps_text p.

Definition error_suffix (p : Parsed) : jsstring :=
  if truthy (error p) then js " (erreur: " ++ str (error p) ++ js ")" else [].

Definition greeting : jsstring := js "Bonjour,".

Definition investigation_line (p : Parsed) : jsstring :=
  if truthy (app p)
  then js "Nous investiguons actuellement un souci affectant "
       ++ str (app p) ++ error_suffix p ++ js "."
  else js "Nous investiguons actuellement le souci signalé"
       ++ error_suffix p ++ js ".".

Definition reassurance : jsstring :=
  js "Nos équipes sont mobilisées. Nous vous tiendrons informé de l'avancement.".

Definition closing : jsstring := js "Merci de votre patience.".

Definition userComment_lines (p : Parsed) : list (option jsstring) :=
  [ Some greeting;
    Some (investigation_line p);
    line_if (truthy (impact p)) (impact_line p);
    Some reassurance;
    Some closing ].

Definition caller_line (p : Parsed) : jsstring :=
  js "Appelant: " ++ str (user p) ++ js ".".

Definition acknowledged (ts : jsstring) : jsstring :=
  js "[" ++ ts ++ js "] Prise en charge de l'incident.".

Definition next_actions : jsstring :=
  js "Prochaines actions: analyse des journaux, corrélation des alertes, vérification dépendances.".

Definition monitoring : jsstring := js "Surveillance continue en place.".

Definition workNotes_blocks (ts : jsstring) (p : Parsed) (description : jsstring)
  : list (option jsstring) :=
  [ Some (acknowledged ts);
    line_if (truthy (user p)) (caller_line p);
    Some description;
    Some (actions_block p);
    Some next_actions;
    Some monitoring ].

(** [ts] is [new Date().toLocaleString("fr-FR")], the wall clock read when
    the templates are built. *)
Definition buildFrenchTemplates (ts : jsstring) (p : Parsed) : Rendered :=
  let titre := slice0 120 (join (js " ") (compact (titre_parts p))) in
  let description := join [NL] (compact (description_lines p)) in
  let workNotes :=
    join [NL; NL] (compact (workNotes_blocks ts p description)) in
  let userComment := join (js " " ++ [NL]) (compact (userComment_lines p)) in
  {| titre := if nonempty titre then titre else fallback_title;
     description := description;
     workNotes := workNotes;
     userComment := userComment |}.

(** ** The component *)

(** [generate]: the four templates go through [ensureFrench] one after the
    other; the four results are stored only when all four calls returned.
    [fetch i] is what the network does at the [i]-th call.  The [finally]
    block only resets the loading flag. *)
Definition generate (fn : jsstring)
           (fetch : nat -> request -> outcome response)
           (fr : Rendered) (provider : Provider) (endpoint : jsstring)
  : outcome (json * json * json * json) :=
  bind (ensureFrench fn (fetch 0%nat) (titre fr) provider endpoint) (fun t1 =>
  bind (ensureFrench fn (fetch 1%nat) (description fr) provider endpoint) (fun t2 =>
  bind (ensureFrench fn (fetch 2%nat) (workNotes fr) provider endpoint) (fun t3 =>
  bind (ensureFrench fn (fetch 3%nat) (userComment fr) provider endpoint) (fun t4 =>
  Returned (t1, t2, t3, t4))))).

(** [a || b] on strings. *)
Definition or_else (a b : jsstring) : jsstring :=
  if nonempty a then a else b.

Module ServiceNowJSON.

(** The object handed to [JSON.stringify]. *)
Record t := Make {
  short_description : jsstring;
  description : jsstring;
  work_notes : jsstring;
  comments : jsstring
}.

End ServiceNowJSON.

(** [asServiceNowJSON], before serialization: the edited or translated text
    of each output when there is one, the template otherwise. *)
Definition asServiceNowJSON (frTitle frDesc frWork frUser : jsstring)
           (fr : Rendered) : ServiceNowJSON.t :=
  ServiceNowJSON.Make (or_else frTitle (titre fr))
                      (or_else frDesc (description fr))
                      (or_else frWork (workNotes fr))
                      (or_else frUser (userComment fr)).


(** ** Labels in free text

    What the specification calls a field label: a keyword, in any letter
    case, followed by optional white space and [:] or [=]. *)

Definition eq_ci (a b : N) : bool := (a =? b) || (a =? other_case b).

(** [starts_ci l s]: [s] begins with [l] up to letter case; the text after. *)
Fixpoint starts_ci (l s : jsstring) : option jsstring :=
  match l, s with
  | [], _ => Some s
  | a :: l', c :: s' => if eq_ci a c then starts_ci l' s' else None
  | _ :: _, [] => None
  end.

Definition is_delim (c : N) : bool := (c =? 58) || (c =? 61).

(** The text after the label and its delimiter, when [s] begins with them. *)
Definition after_label (l s : jsstring) : option jsstring :=
  match starts_ci l s with
  | Some r =>
    match trimStart r with
    | d :: r2 => if is_delim d then Some r2 else None
    | [] => None
    end
  | None => None
  end.

Definition label_here (l s : jsstring) : bool :=
  match after_label l s with Some _ => true | None => false end.

(** A label with a value: something other than white space follows. *)
Definition valued_label_here (l s : jsstring) : bool :=
  match after_label l s with
  | Some r2 => nonempty (trimStart r2)
  | None => false
  end.

(** Some position of [s] satisfies [here]. *)
Fixpoint somewhere (here : jsstring -> bool) (s : jsstring) : bool :=
  here s || match s with [] => false | _ :: t => somewhere here t end.

Definition label_in (l s : jsstring) : bool := somewhere (label_here l) s.

Definition valued_label_in (l s : jsstring) : bool :=
  somewhere (valued_label_here l) s.

(** The synonyms [parseInput] writes, per field. *)
Definition app_labels := [js "app"; js "application"; js "service"; js "system"].
Definition env_labels := [js "env"; js "environment"].
Definition impact_labels := [js "impact"].
Definition urgency_labels := [js "urgency"; js "priority"; js "prio"; js "severity"].
Definition error_labels := [js "error"; js "err"; js "code"].
Definition when_labels := [js "when"; js "since"; js "time"; js "started"].
Definition region_labels := [js "region"; js "location"].
Definition user_labels := [js "user"; js "requester"; js "caller"].
Definition ticket_labels := [js "ticket"; js "ref"; js "id"].
Definition steps_labels := [js "step"; js "steps"].

Definition recognized_labels : list jsstring :=
  app_labels ++ env_labels ++ impact_labels ++ urgency_labels ++ error_labels
  ++ when_labels ++ region_labels ++ user_labels ++ ticket_labels
  ++ steps_labels.

Definition has_label (labels : list jsstring) (s : jsstring) : bool :=
  existsb (fun l => label_in l s) labels.

(** The nine scalar fields of a record. *)
Inductive field :=
| Fapp | Fenv | Fimpact | Furgency | Ferror | Fwhen | Fregion | Fuser | Fticket.

Definition all_fields : list field :=
  [Fapp; Fenv; Fimpact; Furgency; Ferror; Fwhen; Fregion; Fuser; Fticket].

Definition field_of (f : field) (p : Parsed) : option jsstring :=
  match f with
  | Fapp => app p
  | Fenv => env p
  | Fimpact => impact p
  | Furgency => urgency p
  | Ferror => error p
  | Fwhen => when p
  | Fregion => region p
  | Fuser => user p
  | Fticket => ticket p
  end.

Definition labels_of (f : field) : list jsstring :=
  match f with
  | Fapp => app_labels
  | Fenv => env_labels
  | Fimpact => impact_labels
  | Furgency => urgency_labels
  | Ferror => error_labels
  | Fwhen => when_labels
  | Fregion => region_labels
  | Fuser => user_labels
  | Fticket => ticket_labels
  end.

(** The label text [parseInput] hands to [get] for each field. *)
Definition label_text (f : field) : jsstring := join (js "|") (labels_of f).

(** [hay] contains [needle]. *)
Definition contains (hay needle : jsstring) : Prop :=
  exists pre post, hay = pre ++ needle ++ post.

(** The example input of the specification. *)
Definition example_input : jsstring :=
  js "app: Checkout" ++ [NL] ++ js "error: HTTP 500" ++ [NL]
  ++ js "impact: high" ++ [NL] ++ js "steps: restart pod; clear cache".

(** ** Definitions used in the proofs *)

Section Greedy.

Variable p : N -> bool.

(** The states a greedy run over the set [p] offers: the longest run
    first. *)
Fixpoint run (b : option N) (s : jsstring) (cs : list (nat * jsstring))
  : list mstate :=
  match s with
  | c :: t => if p c then run (Some c) t cs ++ [MState b s cs]
              else [MState b s cs]
  | [] => [MState b s cs]
  end.

(** The text after the longest prefix in [p], and that prefix. *)
Fixpoint skip (s : jsstring) : jsstring :=
  match s with
  | c :: t => if p c then skip t else s
  | [] => []
  end.

Fixpoint span (s : jsstring) : jsstring :=
  match s with
  | c :: t => if p c then c :: span t else []
  | [] => []
  end.

End Greedy.

Definition not_newline (c : N) : bool := negb (c =? NL).

(** The shape of the pattern [get] builds.  For the label text
    [l1|...|ln] it is an alternation whose first [n-1] alternatives are the
    bare words and whose last alternative is the last word followed by the
    delimiter and the captured value (see [field_re_parse]). *)

Definition ws_class : regex := Class false [CSpace].
Definition delim_class : regex := Class false [CChar 58; CChar 61].
Definition value_group : regex := Group 1 (Seq (Plus (Class true [CChar 10])) Empty).

Definition lit (l : jsstring) (k : regex) : regex :=
  fold_right (fun c r => Seq (Char c) r) k l.

Definition value_re : regex := Seq (Star ws_class) (Seq value_group Empty).

Definition labelled (k : regex) : regex :=
  Seq (Star ws_class) (Seq delim_class k).

Definition tail_re (l : jsstring) : regex := lit l (labelled value_re).

Fixpoint alts (ls : list jsstring) (k : regex) : regex :=
  match ls with
  | [] => k
  | l :: t => Alt (lit l Empty) (alts t k)
  end.

Definition field_re (f : field) : regex :=
  alts (removelast (labels_of f)) (tail_re (last (labels_of f) [])).

Definition steps_re : regex :=
  lit (js "step")
      (Seq (Opt (Char 115))
           (labelled (Seq (Group 1 (Seq (Plus (Class false [CSpace; CNotSpace])) Empty))
                          Empty))).

Definition tail_label (f : field) : jsstring := last (labels_of f) [].

(** An empty scalar field made undefined. *)
Definition blank (o : option jsstring) : option jsstring :=
  match o with
  | Some [] => None
  | _ => o
  end.

(** The record with every empty scalar field made undefined. *)
Definition undefine_empty (p : Parsed) : Parsed :=
  {| app := blank (app p);
     env := blank (env p);
     impact := blank (impact p);
     urgency := blank (urgency p);
     steps := steps p;
     error := blank (error p);
     when := blank (when p);
     region := blank (region p);
     user := blank (user p);
     ticket := blank (ticket p);
     summary := summary p |}.

(** The remote call failed: [fetch] rejected, the status is not 2xx, or
    the body is not JSON. *)
Definition remote_failed (o : outcome response) : bool :=
  match o with
  | Thrown _ => true
  | Returned res =>
    negb (ok res) || match res_json res with None => true | Some _ => false end
  end.

(** A server that answers every request with status 500. *)
Definition server_error (_ : request) : outcome response :=
  Returned (Response 500 (Some (js "Internal Server Error")) None).

(** The little-endian numeral [u] with the digit [r] put in front. *)
Definition digit_cons (r : nat) (u : Decimal.uint) : Decimal.uint :=
  match r with
  | 0 => Decimal.D0 u | 1 => Decimal.D1 u | 2 => Decimal.D2 u
  | 3 => Decimal.D3 u | 4 => Decimal.D4 u | 5 => Decimal.D5 u
  | 6 => Decimal.D6 u | 7 => Decimal.D7 u | 8 => Decimal.D8 u
  | _ => Decimal.D9 u
  end%nat.

(** ** Definitions used in the further properties *)

(** The separators of the step list. *)
Definition is_sep (c : N) : bool :=
  (c =? 10) || (c =? 59) || (c =? 8226) || (c =? 45).

(** Cutting a text at every character of a set; [piece] is the current
    piece, reversed. *)
Fixpoint split_on (sep : N -> bool) (piece s : jsstring) : list jsstring :=
  match s with
  | [] => [rev piece]
  | c :: t => if sep c then rev piece :: split_on sep [] t
              else split_on sep (c :: piece) t
  end.

(** The captured value of the first place of [s] where the label [l], its
    delimiter and a value stand: the rest of the line from the first
    character that is not white space. *)
Definition value_here (l s : jsstring) : option jsstring :=
  match after_label l s with
  | Some r2 =>
    match trimStart r2 with
    | c :: t => Some (c :: span not_newline t)
    | [] => None
    end
  | None => None
  end.

Fixpoint first_value (l s : jsstring) : option jsstring :=
  match value_here l s with
  | Some v => Some v
  | None => match s with
            | [] => None
            | _ :: t => first_value l t
            end
  end.

Definition is_letter (c : N) : bool := is_upper c || is_lower c.

Definition toUpperCase (s : jsstring) : jsstring :=
  map (fun c => if is_lower c then c - 32 else c) s.

Definition draft_marker : jsstring :=
  js "⟦Brouillon – traduction approximative⟧ ".

Definition ends_with_slash (s : jsstring) : bool :=
  match rev s with
  | c :: _ => c =? 47
  | [] => false
  end.

(** The record of an input without labels. *)
Definition no_fields (text : jsstring) : Parsed :=
  {| app := Some []; env := Some []; impact := Some []; urgency := Some [];
     steps := Some []; error := Some []; when := Some []; region := Some [];
     user := Some []; ticket := Some []; summary := Some text |}.

(** A server that answers 200 with the given JSON body. *)
Definition server_ok (data : json) (_ : request) : outcome response :=
  Returned (Response 200 None (Some data)).

(** The glossary pass of [simpleTranslate]. *)
Definition glossary_pass (fn text : jsstring) : jsstring :=
  replace_all false (literal "\b([A-Za-z']+)\b")
    (fun mr => match glossary_get fn (toLowerCase (matched mr)) with
               | Some v => v
               | None => matched mr
               end)
    text.

(** [s] starts with [k]; [k] occurs in [s]. *)
Fixpoint prefixb (k s : jsstring) : bool :=
  match k, s with
  | [], _ => true
  | a :: k', c :: s' => (a =? c) && prefixb k' s'
  | _ :: _, [] => false
  end.

Definition occurs (k s : jsstring) : bool := somewhere (prefixb k) s.

(** Some glossary key, or [constructor], is part of the text in lower
    case. *)
Definition mentions_key (text : jsstring) : bool :=
  existsb (fun k => occurs k (toLowerCase text))
          (js "constructor" :: map fst GLOSSARY).

(** No string twice in a list. *)
Fixpoint distinct (l : list jsstring) : bool :=
  match l with
  | [] => true
  | x :: t => negb (existsb (eqs x) t) && distinct t
  end.

(** The JSON object has a member named [k]. *)
Fixpoint has_member (k : jsstring) (l : list (jsstring * json)) : bool :=
  match l with
  | [] => false
  | (k', _) :: t => eqs k' k || has_member k t
  end.

(** The patterns of the regular-expression literals, parsed (see
    [literal_slash_end], [literal_sep], [literal_word]). *)
Definition slash_end : regex := Seq (Char 47) (Seq Eol Empty).

(** No valued label [l] starts inside [pre], the text before [s]. *)
Fixpoint none_before (l pre s : jsstring) : bool :=
  match pre with
  | [] => true
  | _ :: p =>
    match value_here l (pre ++ s) with
    | None => none_before l p s
    | Some _ => false
    end
  end.

Definition sep_re : regex :=
  Alt (Seq (Char 10) Empty)
      (Alt (Seq (Char 59) Empty)
           (Alt (Seq (Char 8226) Empty) (Seq (Char 45) Empty))).

(** A step as the extractor leaves it. *)
Definition clean_step (st : jsstring) : Prop :=
  st <> [] /\ trim st = st /\ Forall (fun c => is_sep c = false) st.

Definition word_re : regex :=
  Seq WordB
      (Seq (Group 1 (Seq (Plus (Class false [CRange 65 90; CRange 97 122; CChar 39]))
                         Empty))
           (Seq WordB Empty)).

(** The set [[A-Za-z']]. *)
Definition word_char (c : N) : bool :=
  class_has false false [CRange 65 90; CRange 97 122; CChar 39] c.

(** * Properties *)

(** ** The patterns of the program *)

Lemma literals_parse :
  Forall (fun t => parse (js t) <> None)
         ["\bSLA\b"; "\bETA\b"; "\b([A-Za-z']+)\b"; "\/$";
          "^\s*(\d+\.|-)"; "steps?\s*[:=]([\s\S]+)"; "\n|;|•|-"]%string.
Proof. repeat constructor; vm_compute; discriminate. Qed.

Lemma field_patterns_parse :
  forall f, parse (get_pattern (label_text f)) <> None.
Proof. destruct f; vm_compute; discriminate. Qed.

Lemma parseInput_fields raw f :
  field_of f (parseInput raw) = Some (get (trim raw) (label_text f)).
Proof. destruct f; reflexivity. Qed.

(** ** The matcher only moves forward

    Every state the matcher offers is at or after the state it started
    from, so the repetition, [split] and [replace] loops, which are given
    the length of the remaining text as fuel, never run out of it. *)

Definition at_or_after (st st' : mstate) : Prop :=
  exists w, rest st = w ++ rest st'.

Lemma at_or_after_refl st : at_or_after st st.
Proof. exists []. reflexivity. Qed.

Lemma at_or_after_trans a b c :
  at_or_after a b -> at_or_after b c -> at_or_after a c.
Proof.
  intros (w1 & H1) (w2 & H2). exists (w1 ++ w2).
  rewrite H1, H2, app_assoc. reflexivity.
Qed.

Lemma at_or_after_length st st' :
  at_or_after st st' -> (List.length (rest st') <= List.length (rest st))%nat.
Proof. intros (w & ->). rewrite length_app. lia. Qed.

Lemma one_forward q st st' : In st' (one q st) -> at_or_after st st'.
Proof.
  unfold one. destruct (rest st) as [|c t] eqn:E; [intros []|].
  destruct (q c); [|intros []]. intros [<-|[]]. exists [c]. exact E.
Qed.

Lemma assert_forward b st st' : In st' (assert b st) -> at_or_after st st'.
Proof.
  unfold assert. destruct b; [|intros []]. intros [<-|[]].
  apply at_or_after_refl.
Qed.

Lemma iter_forward step :
  (forall st st', In st' (step st) -> at_or_after st st') ->
  forall fuel st st', In st' (iter step fuel st) -> at_or_after st st'.
Proof.
  intros Hstep. induction fuel as [|k IH]; intros st st'; simpl.
  - intros [<-|[]]. apply at_or_after_refl.
  - intros H. apply in_app_or in H. destruct H as [H|[<-|[]]].
    + apply in_flat_map in H. destruct H as (st1 & H1 & H2).
      apply filter_In in H1. destruct H1 as [H1 _].
      exact (at_or_after_trans _ _ _ (Hstep _ _ H1) (IH _ _ H2)).
    + apply at_or_after_refl.
Qed.

Lemma m_forward ic r :
  forall st st', In st' (m ic r st) -> at_or_after st st'.
Proof.
  induction r as [| c | | neg items | | | | | a IHa b IHb | a IHa b IHb
                  | a IHa | a IHa | a IHa | n a IHa];
    intros st st'; cbn [m];
    try apply one_forward; try apply assert_forward.
  - intros [<-|[]]. apply at_or_after_refl.
  - intros H. apply in_flat_map in H. destruct H as (st1 & H1 & H2).
    exact (at_or_after_trans _ _ _ (IHa _ _ H1) (IHb _ _ H2)).
  - intros H. apply in_app_or in H. destruct H as [H|H]; auto.
  - apply iter_forward. exact IHa.
  - intros H. apply in_flat_map in H. destruct H as (st1 & H1 & H2).
    apply (at_or_after_trans _ st1); [auto|].
    exact (iter_forward _ IHa _ _ _ H2).
  - intros H. apply in_app_or in H. destruct H as [H|[<-|[]]].
    + apply filter_In in H. destruct H as [H _]. auto.
    + apply at_or_after_refl.
  - intros H. apply in_map_iff in H. destruct H as (st1 & <- & H).
    destruct (IHa _ _ H) as (w & Hw). exists w. exact Hw.
Qed.

Lemma consumed_length st st' :
  at_or_after st st' ->
  (List.length (consumed st st') + List.length (rest st')
   = List.length (rest st))%nat.
Proof.
  intros (w & E). unfold consumed. rewrite E, length_firstn, length_app. lia.
Qed.

Lemma flat_map_ext_on {A B} (f g : A -> list B) l :
  (forall x, In x l -> f x = g x) -> flat_map f l = flat_map g l.
Proof.
  induction l as [|a l IH]; intros H; simpl; [reflexivity|].
  rewrite (H a), IH; auto using in_eq, in_cons.
Qed.

(** More fuel than the repetition is given changes nothing. *)
Lemma iter_fuel step f1 :
  forall f2 st,
    (List.length (rest st) <= f1)%nat -> (List.length (rest st) <= f2)%nat ->
    iter step f1 st = iter step f2 st.
Proof.
  assert (Z : forall st, List.length (rest st) = 0%nat ->
                         filter (advanced st) (step st) = []).
  { intros st H. induction (step st) as [|x l IH]; [reflexivity|].
    simpl. unfold advanced at 1. rewrite H. simpl. exact IH. }
  induction f1 as [|k1 IH]; intros f2 st H1 H2.
  - destruct f2 as [|k2]; [reflexivity|]. simpl. rewrite Z by lia. reflexivity.
  - destruct f2 as [|k2].
    + simpl. rewrite Z by lia. reflexivity.
    + simpl. f_equal. apply flat_map_ext_on. intros st1 Hin.
      apply filter_In in Hin. destruct Hin as [_ Hadv].
      apply Nat.ltb_lt in Hadv. apply IH; lia.
Qed.

(** More fuel than [split] is given changes nothing. *)
Lemma split_loop_fuel ic r f1 :
  forall f2 prev piece s,
    (2 * List.length s + (match piece with [] => 0 | _ => 1 end) < f1)%nat ->
    (2 * List.length s + (match piece with [] => 0 | _ => 1 end) < f2)%nat ->
    split_loop f1 ic r prev piece s = split_loop f2 ic r prev piece s.
Proof.
  induction f1 as [|k1 IH]; intros f2 prev piece s H1 H2; [lia|].
  destruct f2 as [|k2]; [lia|]. cbn [split_loop].
  destruct s as [|c t]; [reflexivity|]. cbn [List.length] in H1, H2.
  destruct (m ic r (MState prev (c :: t) [])) as [|st' l] eqn:E.
  - apply IH; cbn [List.length]; destruct piece; lia.
  - assert (F : at_or_after (MState prev (c :: t) []) st')
      by (apply (m_forward ic r); rewrite E; left; reflexivity).
    pose proof (consumed_length _ _ F) as L. cbn [rest List.length] in L.
    destruct (consumed (MState prev (c :: t) []) st') as [|x w] eqn:Ec.
    + destruct piece as [|y piece].
      * apply IH; cbn [List.length]; lia.
      * f_equal. apply IH; cbn [List.length] in *; lia.
    + f_equal. apply IH; cbn [List.length] in *; lia.
Qed.

Lemma split_fuel ic r extra c t :
  split ic r (c :: t)
  = split_loop (2 * List.length (c :: t) + 1 + extra) ic r None [] (c :: t).
Proof. unfold split. apply split_loop_fuel; lia. Qed.

Lemma exec_from_forward ic r idx prev s mr :
  exec_from ic r idx prev s = Some mr ->
  (List.length (matched mr) + List.length (after mr) <= List.length s)%nat.
Proof.
  revert idx prev. induction s as [|c t IH]; intros idx prev; cbn [exec_from].
  - destruct (m ic r (MState prev [] [])) as [|st' l] eqn:E; [discriminate|].
    intros [= <-]. cbn [matched after].
    rewrite consumed_length; [reflexivity|].
    apply (m_forward ic r). rewrite E. left. reflexivity.
  - destruct (m ic r (MState prev (c :: t) [])) as [|st' l] eqn:E.
    + intros H. apply IH in H. cbn [List.length]. lia.
    + intros [= <-]. cbn [matched after].
      rewrite consumed_length; [reflexivity|].
      apply (m_forward ic r). rewrite E. left. reflexivity.
Qed.

(** More fuel than [replace] is given changes nothing. *)
Lemma replace_loop_fuel ic r f f1 :
  forall f2 prev s,
    (List.length s < f1)%nat -> (List.length s < f2)%nat ->
    replace_loop f1 ic r f prev s = replace_loop f2 ic r f prev s.
Proof.
  induction f1 as [|k1 IH]; intros f2 prev s H1 H2; [lia|].
  destruct f2 as [|k2]; [lia|]. cbn [replace_loop].
  destruct (exec_from ic r 0 prev s) as [mr|] eqn:E; [|reflexivity].
  apply exec_from_forward in E. do 2 f_equal.
  destruct (matched mr) as [|x w]; destruct (after mr) as [|c t];
    cbn [List.length] in E; try reflexivity.
  - f_equal. apply IH; lia.
  - apply IH; cbn [List.length]; lia.
  - apply IH; cbn [List.length]; lia.
Qed.

(** ** The matcher on runs of a character set *)

Section Runs.

Variable p : N -> bool.

Lemma span_skip s : s = span p s ++ skip p s.
Proof. induction s as [|c t IH]; simpl; [|destruct (p c); simpl; congruence]; reflexivity. Qed.

Lemma span_all s : Forall (fun c => p c = true) (span p s).
Proof.
  induction s as [|c t IH]; simpl; [constructor|].
  destruct (p c) eqn:E; constructor; assumption.
Qed.

Lemma skip_head c t : skip p (c :: t) = c :: t -> p c = false.
Proof.
  simpl. destruct (p c); [|reflexivity].
  intro H. pose proof (span_skip t) as E.
  apply (f_equal (@List.length N)) in H, E. rewrite length_app in E.
  simpl in H. lia.
Qed.

Lemma skip_stops s c t : skip p s = c :: t -> p c = false.
Proof.
  induction s as [|a s IH]; simpl; [discriminate|].
  destruct (p a) eqn:E; [assumption|]. intro H. congruence.
Qed.

Lemma skip_app_stop w s c t :
  Forall (fun x => p x = true) w -> s = c :: t -> p c = false ->
  skip p (w ++ s) = s.
Proof.
  intros Hw -> Hc. induction Hw as [|x w Hx _ IH]; simpl.
  - rewrite Hc. reflexivity.
  - rewrite Hx. assumption.
Qed.

Lemma iter_one_run fuel b s cs :
  (List.length s <= fuel)%nat ->
  iter (one p) fuel (MState b s cs) = run p b s cs.
Proof.
  revert b s. induction fuel as [|k IH]; intros b s Hlen.
  - destruct s; [reflexivity|simpl in Hlen; lia].
  - destruct s as [|c t]; [reflexivity|]. simpl in Hlen.
    cbn [iter one rest caps]. simpl run. destruct (p c).
    + cbn [filter].
      assert (A : advanced (MState b (c :: t) cs) (MState (Some c) t cs) = true)
        by (apply Nat.ltb_lt; simpl; lia).
      rewrite A. cbn [flat_map]. rewrite app_nil_r, IH by lia. reflexivity.
    + reflexivity.
Qed.

Lemma repeat_one_run st :
  repeat (one p) st = run p (before st) (rest st) (caps st).
Proof.
  destruct st as [b s cs]. unfold repeat. apply iter_one_run. simpl. lia.
Qed.

Lemma run_In b s cs st' :
  In st' (run p b s cs) ->
  exists w, s = w ++ rest st' /\ Forall (fun c => p c = true) w
            /\ caps st' = cs.
Proof.
  revert b. induction s as [|c t IH]; intros b H.
  - simpl in H. destruct H as [<-|[]]. exists []. repeat split; constructor.
  - simpl in H. destruct (p c) eqn:E.
    + apply in_app_or in H. destruct H as [H|[<-|[]]].
      * destruct (IH _ H) as (w & -> & Hw & Hc).
        exists (c :: w). repeat split; [constructor|]; assumption.
      * exists []. repeat split; constructor.
    + destruct H as [<-|[]]. exists []. repeat split; constructor.
Qed.

(** The first state offered is the one after the longest run. *)
Lemma run_head b s cs :
  exists b' l, run p b s cs = MState b' (skip p s) cs :: l.
Proof.
  revert b. induction s as [|c t IH]; intros b; simpl.
  - eauto.
  - destruct (p c); [|eauto].
    destruct (IH (Some c)) as (b' & l & ->). simpl. eauto.
Qed.

(** A continuation that fails on every character of the set only sees the
    state after the longest run. *)
Lemma run_then (k : mstate -> list mstate) b s cs :
  (forall b' c t cs', p c = true -> k (MState b' (c :: t) cs') = []) ->
  exists b', flat_map k (run p b s cs) = k (MState b' (skip p s) cs).
Proof.
  intros Hk. revert b. induction s as [|c t IH]; intros b; simpl.
  - exists b. apply app_nil_r.
  - destruct (p c) eqn:E.
    + destruct (IH (Some c)) as (b' & Hb). exists b'.
      rewrite flat_map_app, Hb. simpl. rewrite (Hk _ _ _ _ E).
      rewrite !app_nil_r. reflexivity.
    + exists b. simpl. apply app_nil_r.
Qed.

End Runs.

(** ** Character sets under the [i] flag *)

Lemma letter_range c :
  is_lower c || is_upper c = true -> 65 <= c <= 122.
Proof.
  unfold is_lower, is_upper.
  rewrite orb_true_iff, !andb_true_iff, !N.leb_le. lia.
Qed.

Lemma space_range c :
  is_space c = true -> c < 65 \/ 122 < c.
Proof.
  unfold is_space.
  rewrite !orb_true_iff, !andb_true_iff, !N.leb_le, !N.eqb_eq. lia.
Qed.

Lemma space_not_delim c : is_space c = true -> is_delim c = false.
Proof.
  unfold is_space, is_delim. intros H.
  rewrite !orb_true_iff, !andb_true_iff, !N.leb_le, !N.eqb_eq in H.
  destruct (N.eqb_spec c 58), (N.eqb_spec c 61); simpl; try reflexivity; lia.
Qed.

Lemma space_not_newline_free c : not_newline c = false -> is_space c = true.
Proof.
  unfold not_newline, NL. destruct (N.eqb_spec c 10) as [->|]; [|discriminate].
  reflexivity.
Qed.

Lemma other_case_letter c :
  other_case c <> c -> 65 <= c <= 122 /\ 65 <= other_case c <= 122.
Proof.
  unfold other_case, is_lower, is_upper.
  destruct (N.leb_spec 97 c), (N.leb_spec c 122), (N.leb_spec 65 c),
    (N.leb_spec c 90); simpl; lia.
Qed.

Lemma is_space_other_case c : is_space (other_case c) = is_space c.
Proof.
  destruct (N.eq_dec (other_case c) c) as [->|Hne]; [reflexivity|].
  apply other_case_letter in Hne. destruct Hne as [H1 H2].
  destruct (is_space c) eqn:E1; destruct (is_space (other_case c)) eqn:E2;
    try reflexivity;
    try (apply space_range in E1; lia); apply space_range in E2; lia.
Qed.

Lemma is_delim_other_case c : is_delim (other_case c) = is_delim c.
Proof.
  destruct (N.eq_dec (other_case c) c) as [->|Hne]; [reflexivity|].
  apply other_case_letter in Hne. destruct Hne as [H1 H2].
  unfold is_delim.
  destruct (N.eqb_spec (other_case c) 58), (N.eqb_spec (other_case c) 61),
    (N.eqb_spec c 58), (N.eqb_spec c 61); simpl; try reflexivity; lia.
Qed.

Lemma class_char c x : class_has true false [CChar c] x = eq_ci c x.
Proof.
  unfold class_has, eq_ci, variants. cbn [existsb item_has xorb].
  rewrite !orb_false_r. reflexivity.
Qed.

Lemma class_space x : class_has true false [CSpace] x = is_space x.
Proof.
  unfold class_has, variants. cbn [existsb item_has xorb].
  rewrite !orb_false_r, is_space_other_case. apply orb_diag.
Qed.

Lemma class_delim x : class_has true false [CChar 58; CChar 61] x = is_delim x.
Proof.
  unfold class_has, variants. cbn [existsb item_has xorb].
  rewrite !orb_false_r.
  pose proof (is_delim_other_case x) as H. unfold is_delim in *.
  rewrite (N.eqb_sym 58 x), (N.eqb_sym 61 x),
    (N.eqb_sym 58 (other_case x)), (N.eqb_sym 61 (other_case x)), H.
  apply orb_diag.
Qed.

Lemma class_not_newline x : class_has true true [CChar 10] x = not_newline x.
Proof.
  unfold class_has, variants, not_newline, NL. cbn [existsb item_has].
  rewrite !orb_false_r.
  assert (H : (10 =? other_case x) = (10 =? x)).
  { destruct (N.eq_dec (other_case x) x) as [->|Hne]; [reflexivity|].
    apply other_case_letter in Hne.
    destruct (N.eqb_spec 10 (other_case x)), (N.eqb_spec 10 x);
      try reflexivity; lia. }
  rewrite H, orb_diag, (N.eqb_sym 10 x).
  destruct (x =? 10); reflexivity.
Qed.

Lemma class_any x : class_has true false [CSpace; CNotSpace] x = true.
Proof.
  unfold class_has, variants. cbn [existsb item_has xorb].
  destruct (is_space x); reflexivity.
Qed.

Lemma one_ext (p q : N -> bool) st :
  (forall c, p c = q c) -> one p st = one q st.
Proof.
  intros H. unfold one. destruct (rest st); [reflexivity|]. rewrite H.
  reflexivity.
Qed.

Lemma run_ext (p q : N -> bool) b s cs :
  (forall c, p c = q c) -> run p b s cs = run q b s cs.
Proof.
  intros H. revert b. induction s as [|c t IH]; intros b; simpl;
    [reflexivity|]. rewrite H, IH. reflexivity.
Qed.

Lemma trimStart_skip s : trimStart s = skip is_space s.
Proof. reflexivity. Qed.

Lemma flat_map_single {A} (l : list A) : flat_map (fun x => [x]) l = l.
Proof. induction l; simpl; congruence. Qed.

Lemma iter_ext (f g : mstate -> list mstate) fuel st :
  (forall x, f x = g x) -> iter f fuel st = iter g fuel st.
Proof.
  intros H. revert st. induction fuel as [|k IH]; intros st; simpl;
    [reflexivity|].
  rewrite H. f_equal. apply flat_map_ext. exact IH.
Qed.

Lemma repeat_class neg items (q : N -> bool) st :
  (forall c, class_has true neg items c = q c) ->
  repeat (one (class_has true neg items)) st =
  run q (before st) (rest st) (caps st).
Proof.
  intros Hq. unfold repeat.
  rewrite (iter_ext _ (one q)) by (intros x; apply one_ext; exact Hq).
  apply repeat_one_run.
Qed.

(** ** The pattern [get] builds *)

Lemma field_re_parse f : parse (get_pattern (label_text f)) = Some (field_re f).
Proof. destruct f; vm_compute; reflexivity. Qed.

Lemma steps_re_parse : literal "steps?\s*[:=]([\s\S]+)" = steps_re.
Proof. vm_compute. reflexivity. Qed.

Lemma m_lit l k b s cs :
  exists b',
    m true (lit l k) (MState b s cs) =
    match starts_ci l s with
    | Some r => m true k (MState b' r cs)
    | None => []
    end.
Proof.
  revert b s. induction l as [|a l IH]; intros b s.
  - exists b. reflexivity.
  - destruct s as [|c t].
    + exists b. reflexivity.
    + cbn [lit fold_right m one rest caps starts_ci]. rewrite class_char.
      destruct (eq_ci a c).
      * destruct (IH (Some c) t) as (b' & Hb). exists b'.
        cbn [flat_map]. rewrite app_nil_r. exact Hb.
      * exists b. reflexivity.
Qed.

Lemma m_labelled k b s cs :
  exists b',
    m true (labelled k) (MState b s cs) =
    match trimStart s with
    | d :: r2 => if is_delim d then m true k (MState b' r2 cs) else []
    | [] => []
    end.
Proof.
  unfold labelled, ws_class, delim_class. cbn [m].
  rewrite (repeat_class _ _ is_space) by apply class_space.
  cbn [before rest caps].
  destruct (run_then is_space
              (fun st => flat_map (m true k)
                           (one (class_has true false [CChar 58; CChar 61]) st))
              b s cs) as (b' & Hb).
  { intros b0 c t cs' Hc. unfold one. cbn [rest]. rewrite class_delim.
    rewrite (space_not_delim _ Hc). reflexivity. }
  rewrite Hb. change (trimStart s) with (skip is_space s).
  unfold one. cbn [rest caps].
  destruct (skip is_space s) as [|d r2]; [exists b; reflexivity|].
  rewrite class_delim. destruct (is_delim d); [|exists b; reflexivity].
  exists (Some d). cbn [flat_map]. apply app_nil_r.
Qed.

Lemma firstn_consumed (w r : jsstring) :
  firstn (List.length (w ++ r) - List.length r) (w ++ r) = w.
Proof.
  rewrite length_app. replace (List.length w + List.length r - List.length r)%nat
    with (List.length w + 0)%nat by lia.
  rewrite firstn_app_2. simpl. apply app_nil_r.
Qed.

Lemma m_group_plus neg items (q : N -> bool) n b s cs :
  (forall c, class_has true neg items c = q c) ->
  m true (Seq (Group n (Seq (Plus (Class neg items)) Empty)) Empty)
    (MState b s cs) =
  match s with
  | c :: t => if q c
              then map (set_cap n (MState b s cs)) (run q (Some c) t cs)
              else []
  | [] => []
  end.
Proof.
  intros Hq. cbn [m]. rewrite !flat_map_single.
  unfold one at 2. cbn [rest caps]. destruct s as [|c t]; [reflexivity|].
  rewrite Hq. destruct (q c); [|reflexivity].
  cbn [flat_map]. rewrite app_nil_r, (repeat_class _ _ q) by exact Hq.
  reflexivity.
Qed.

Lemma group_plus_In neg items q n b s cs st' :
  (forall c, class_has true neg items c = q c) ->
  In st' (m true (Seq (Group n (Seq (Plus (Class neg items)) Empty)) Empty)
            (MState b s cs)) ->
  exists v, s = v ++ rest st' /\ v <> [] /\ caps st' = (n, v) :: cs.
Proof.
  intros Hq. rewrite (m_group_plus _ _ q) by exact Hq.
  destruct s as [|c t]; [intros []|]. destruct (q c); [|intros []].
  intros H. apply in_map_iff in H. destruct H as (st2 & <- & H).
  apply run_In in H. destruct H as (w & Ht & _ & Hc).
  exists (c :: w). cbn [set_cap rest caps]. repeat split.
  - rewrite Ht. reflexivity.
  - discriminate.
  - unfold consumed. cbn [rest]. rewrite Hc, Ht.
    change (c :: w ++ rest st2) with ((c :: w) ++ rest st2).
    rewrite firstn_consumed. reflexivity.
Qed.

Lemma group_plus_head neg items q n b c t cs :
  (forall c, class_has true neg items c = q c) -> q c = true ->
  exists st' l,
    m true (Seq (Group n (Seq (Plus (Class neg items)) Empty)) Empty)
      (MState b (c :: t) cs) = st' :: l
    /\ caps st' = (n, c :: span q t) :: cs.
Proof.
  intros Hq Hc. rewrite (m_group_plus _ _ q) by exact Hq. rewrite Hc.
  destruct (run_head q (Some c) t cs) as (b' & l & ->).
  eexists. eexists. split; [reflexivity|].
  cbn [set_cap caps]. unfold consumed. cbn [rest].
  rewrite (span_skip q t) at 1 3.
  change (c :: span q t ++ skip q t) with ((c :: span q t) ++ skip q t).
  rewrite firstn_consumed. reflexivity.
Qed.

Lemma value_re_unfold b s cs :
  m true value_re (MState b s cs) =
  flat_map (m true (Seq value_group Empty)) (run is_space b s cs).
Proof.
  unfold value_re, ws_class. cbn [m].
  rewrite (repeat_class _ _ is_space) by apply class_space. reflexivity.
Qed.

Lemma value_re_In b s cs st' :
  In st' (m true value_re (MState b s cs)) ->
  exists w v, s = w ++ v ++ rest st' /\ Forall (fun c => is_space c = true) w
              /\ v <> [] /\ caps st' = (1%nat, v) :: cs.
Proof.
  rewrite value_re_unfold. intros H. apply in_flat_map in H.
  destruct H as (st1 & H1 & H2). apply run_In in H1.
  destruct H1 as (w & Hs & Hw & Hc). destruct st1 as [b1 s1 cs1].
  cbn [rest caps] in *. subst cs1.
  apply (group_plus_In _ _ not_newline) in H2; [|apply class_not_newline].
  destruct H2 as (v & Hv & Hne & Hcaps).
  exists w, v. subst. auto.
Qed.

Lemma nonspace_not_newline c : is_space c = false -> not_newline c = true.
Proof.
  intros H. destruct (not_newline c) eqn:E; [reflexivity|].
  apply space_not_newline_free in E. congruence.
Qed.

Lemma value_re_head b s cs c t :
  trimStart s = c :: t ->
  exists st' l,
    m true value_re (MState b s cs) = st' :: l
    /\ caps st' = (1%nat, c :: span not_newline t) :: cs.
Proof.
  intros Hs. rewrite value_re_unfold.
  destruct (run_head is_space b s cs) as (b' & l & ->).
  change (skip is_space s) with (trimStart s). rewrite Hs.
  cbn [flat_map].
  destruct (group_plus_head true [CChar 10] not_newline 1 b' c t cs)
    as (st' & l' & E & Hc).
  - apply class_not_newline.
  - apply nonspace_not_newline. exact (skip_stops is_space s c t Hs).
  - unfold value_group. rewrite E. exists st', (l' ++ flat_map (m true (Seq (Group 1 (Seq (Plus (Class true [CChar 10])) Empty)) Empty)) l).
    split; [reflexivity|exact Hc].
Qed.

Lemma tail_re_In l b s cs st' :
  In st' (m true (tail_re l) (MState b s cs)) ->
  exists r2 w v,
    after_label l s = Some r2 /\ r2 = w ++ v ++ rest st'
    /\ Forall (fun c => is_space c = true) w /\ v <> []
    /\ caps st' = (1%nat, v) :: cs.
Proof.
  unfold tail_re, after_label.
  destruct (m_lit l (labelled value_re) b s cs) as (b1 & ->).
  destruct (starts_ci l s) as [r|]; [|intros []].
  destruct (m_labelled value_re b1 r cs) as (b2 & ->).
  destruct (trimStart r) as [|d r2]; [intros []|].
  destruct (is_delim d); [|intros []].
  intros H. apply value_re_In in H. destruct H as (w & v & H).
  exists r2, w, v. split; [reflexivity|exact H].
Qed.

Lemma tail_re_head l b s cs r2 c t :
  after_label l s = Some r2 -> trimStart r2 = c :: t ->
  exists st' l',
    m true (tail_re l) (MState b s cs) = st' :: l'
    /\ caps st' = (1%nat, c :: span not_newline t) :: cs.
Proof.
  unfold tail_re, after_label. intros Ha Ht.
  destruct (m_lit l (labelled value_re) b s cs) as (b1 & ->).
  destruct (starts_ci l s) as [r|]; [|discriminate].
  destruct (m_labelled value_re b1 r cs) as (b2 & ->).
  destruct (trimStart r) as [|d r2']; [discriminate|].
  destruct (is_delim d); [|discriminate].
  injection Ha as ->. apply value_re_head. exact Ht.
Qed.

(** The bare words of the alternation leave the captures untouched. *)
Lemma alts_In ls k b s cs st' :
  In st' (m true (alts ls k) (MState b s cs)) ->
  caps st' = cs \/ In st' (m true k (MState b s cs)).
Proof.
  induction ls as [|l ls IH]; [right; assumption|].
  cbn [alts m]. intros H. apply in_app_or in H. destruct H as [H|H]; [|auto].
  left. destruct (m_lit l Empty b s cs) as (b' & E). rewrite E in H.
  destruct (starts_ci l s); [|destruct H].
  destruct H as [<-|[]]. reflexivity.
Qed.

(** ** [exec]: the leftmost position with a match *)

Lemma exec_from_Some ic r idx prev s mr :
  exec_from ic r idx prev s = Some mr ->
  exists pre s' b st' l,
    s = pre ++ s' /\ m ic r (MState b s' []) = st' :: l
    /\ groups mr = caps st'.
Proof.
  revert idx prev. induction s as [|c t IH]; intros idx prev; cbn [exec_from].
  - destruct (m ic r (MState prev [] [])) as [|st' l] eqn:E; [discriminate|].
    intros [= <-]. exists [], [], prev, st', l. auto.
  - destruct (m ic r (MState prev (c :: t) [])) as [|st' l] eqn:E.
    + intros H. apply IH in H.
      destruct H as (pre & s' & b & st' & l & -> & H).
      exists (c :: pre), s', b, st', l. auto.
    + intros [= <-]. exists [], (c :: t), prev, st', l. auto.
Qed.

Lemma exec_from_None ic r idx prev s :
  exec_from ic r idx prev s = None ->
  forall pre s', s = pre ++ s' -> exists b, m ic r (MState b s' []) = [].
Proof.
  revert idx prev. induction s as [|c t IH]; intros idx prev; cbn [exec_from].
  - destruct (m ic r (MState prev [] [])) eqn:E; [|discriminate].
    intros _ pre s' H. symmetry in H. apply app_eq_nil in H.
    destruct H as [_ ->]. eauto.
  - destruct (m ic r (MState prev (c :: t) [])) eqn:E; [|discriminate].
    intros H [|c' pre] s' Hs; simpl in Hs.
    + subst s'. eauto.
    + injection Hs as -> Hs. exact (IH _ _ H pre s' Hs).
Qed.

Lemma somewhere_app here pre s :
  here s = true -> somewhere here (pre ++ s) = true.
Proof.
  intros H. induction pre as [|c pre IH]; simpl.
  - destruct s; simpl; rewrite H; reflexivity.
  - rewrite IH. apply orb_true_r.
Qed.

Lemma somewhere_exists here s :
  somewhere here s = true -> exists pre s', s = pre ++ s' /\ here s' = true.
Proof.
  induction s as [|c t IH]; simpl.
  - rewrite orb_false_r. intros H. exists [], []. auto.
  - intros H. apply orb_true_iff in H. destruct H as [H|H].
    + exists [], (c :: t). auto.
    + destruct (IH H) as (pre & s' & -> & Hs). exists (c :: pre), s'. auto.
Qed.

(** ** Trimming *)

Lemma trimStart_app_space w s :
  Forall (fun c => is_space c = true) w -> trimStart (w ++ s) = trimStart s.
Proof.
  induction 1 as [|c w Hc _ IH]; simpl; [reflexivity|]. rewrite Hc. exact IH.
Qed.

Lemma trimStart_nil_space s :
  trimStart s = [] -> Forall (fun c => is_space c = true) s.
Proof.
  intros H. rewrite (span_skip is_space s).
  change (skip is_space s) with (trimStart s). rewrite H, app_nil_r.
  apply span_all.
Qed.

Lemma trimStart_app_keep s post c t :
  trimStart s = c :: t -> trimStart (s ++ post) = c :: t ++ post.
Proof.
  intros H. rewrite (span_skip is_space s) at 1.
  change (skip is_space s) with (trimStart s). rewrite H, <- app_assoc.
  change (trimStart (span is_space s ++ (c :: t) ++ post))
    with (skip is_space (span is_space s ++ (c :: t ++ post))).
  apply (skip_app_stop is_space _ _ c (t ++ post)); [apply span_all|reflexivity|].
  exact (skip_stops is_space s c t H).
Qed.

Lemma trimStart_suffix s : exists pre, s = pre ++ trimStart s.
Proof. exists (span is_space s). apply (span_skip is_space). Qed.

Lemma trimEnd_decompose s :
  exists post, s = trimEnd s ++ post /\ Forall (fun c => is_space c = true) post.
Proof.
  exists (rev (span is_space (rev s))). split.
  - unfold trimEnd. change (trimStart (rev s)) with (skip is_space (rev s)).
    rewrite <- rev_app_distr, <- span_skip, rev_involutive. reflexivity.
  - apply Forall_rev, span_all.
Qed.

Lemma trim_decompose raw :
  exists pre post,
    raw = pre ++ trim raw ++ post
    /\ Forall (fun c => is_space c = true) pre
    /\ Forall (fun c => is_space c = true) post.
Proof.
  destruct (trimEnd_decompose (trimStart raw)) as (post & E & Hpost).
  exists (span is_space raw), post. repeat split; [|apply span_all|exact Hpost].
  unfold trim. rewrite <- E. apply (span_skip is_space).
Qed.

(** Trimmed text does not end in white space. *)
Lemma trim_ends raw pre r :
  trim raw = pre ++ r -> Forall (fun c => is_space c = true) r -> r = [].
Proof.
  intros E Hr. apply (f_equal (@rev N)) in E.
  unfold trim, trimEnd in E. rewrite rev_involutive, rev_app_distr in E.
  destruct (rev r) as [|x y] eqn:Er.
  - apply (f_equal (@rev N)) in Er. rewrite rev_involutive in Er. exact Er.
  - exfalso. simpl in E.
    apply (skip_stops is_space) in E.
    assert (Hx : In x r) by (apply in_rev; rewrite Er; left; reflexivity).
    rewrite Forall_forall in Hr. rewrite (Hr x Hx) in E. discriminate.
Qed.

Lemma skip_app_nonspace l c t :
  is_space c = false -> skip is_space (l ++ c :: t) <> [].
Proof.
  intros Hc. induction l as [|a l IH]; simpl.
  - rewrite Hc. discriminate.
  - destruct (is_space a); [exact IH|discriminate].
Qed.

Lemma trim_nonspace_head c x :
  is_space c = false -> nonempty (trim (c :: x)) = true.
Proof.
  intros Hc. unfold trim. simpl trimStart. rewrite Hc. unfold trimEnd.
  simpl rev. change trimStart with (skip is_space).
  pose proof (skip_app_nonspace (rev x) c [] Hc) as H.
  destruct (skip is_space (rev x ++ [c])) as [|a l] eqn:E; [congruence|].
  simpl. destruct (rev l ++ [a]) eqn:E2; [|reflexivity].
  apply app_eq_nil in E2. destruct E2 as [_ E2]. discriminate.
Qed.

Lemma trim_nonempty_start v :
  nonempty (trim v) = true -> nonempty (trimStart v) = true.
Proof.
  unfold trim. destruct (trimStart v); [discriminate|reflexivity].
Qed.

(** ** Labels survive extending the text *)

Lemma starts_ci_app l s r post :
  starts_ci l s = Some r -> starts_ci l (s ++ post) = Some (r ++ post).
Proof.
  revert s. induction l as [|a l IH]; intros s; simpl.
  - intros [= ->]. reflexivity.
  - destruct s as [|c t]; [discriminate|]. simpl.
    destruct (eq_ci a c); [apply IH|discriminate].
Qed.

Lemma starts_ci_suffix l s r :
  starts_ci l s = Some r -> exists pre, s = pre ++ r.
Proof.
  revert s. induction l as [|a l IH]; intros s; simpl.
  - intros [= ->]. exists []. reflexivity.
  - destruct s as [|c t]; [discriminate|].
    destruct (eq_ci a c); [|discriminate].
    intros H. destruct (IH _ H) as (pre & ->). exists (c :: pre). reflexivity.
Qed.

Lemma starts_ci_snoc l a s c t :
  starts_ci l s = Some (c :: t) -> eq_ci a c = true ->
  starts_ci (l ++ [a]) s = Some t.
Proof.
  revert s. induction l as [|x l IH]; intros s; simpl.
  - intros [= ->] Ha. rewrite Ha. reflexivity.
  - destruct s as [|y s]; [discriminate|].
    destruct (eq_ci x y); [apply IH|discriminate].
Qed.

Lemma after_label_app l s r2 post :
  after_label l s = Some r2 -> after_label l (s ++ post) = Some (r2 ++ post).
Proof.
  unfold after_label. destruct (starts_ci l s) as [r|] eqn:E; [|discriminate].
  rewrite (starts_ci_app _ _ _ post E).
  destruct (trimStart r) as [|d r'] eqn:Et; [discriminate|].
  rewrite (trimStart_app_keep _ post _ _ Et).
  destruct (is_delim d); [|discriminate]. intros [= ->]. reflexivity.
Qed.

Lemma after_label_suffix l s r2 :
  after_label l s = Some r2 -> exists mid, s = mid ++ r2.
Proof.
  unfold after_label. destruct (starts_ci l s) as [r|] eqn:E; [|discriminate].
  destruct (starts_ci_suffix _ _ _ E) as (p1 & ->).
  destruct (trimStart_suffix r) as (p2 & Hr).
  destruct (trimStart r) as [|d r']; [discriminate|].
  destruct (is_delim d); [|discriminate]. intros [= ->].
  exists (p1 ++ p2 ++ [d]). rewrite Hr at 1. rewrite <- !app_assoc. reflexivity.
Qed.

Lemma label_here_app l s post :
  label_here l s = true -> label_here l (s ++ post) = true.
Proof.
  unfold label_here. destruct (after_label l s) as [r2|] eqn:E; [|discriminate].
  rewrite (after_label_app _ _ _ post E). reflexivity.
Qed.

Lemma valued_label_here_app l s post :
  valued_label_here l s = true -> valued_label_here l (s ++ post) = true.
Proof.
  unfold valued_label_here.
  destruct (after_label l s) as [r2|] eqn:E; [|discriminate].
  rewrite (after_label_app _ _ _ post E).
  destruct (trimStart r2) as [|c t] eqn:Et; [discriminate|].
  rewrite (trimStart_app_keep _ post _ _ Et). reflexivity.
Qed.

Lemma somewhere_infix here pre s post :
  (forall x y, here x = true -> here (x ++ y) = true) ->
  somewhere here s = true -> somewhere here (pre ++ s ++ post) = true.
Proof.
  intros Hmono H. apply somewhere_exists in H.
  destruct H as (p1 & s' & -> & Hs).
  rewrite <- app_assoc, app_assoc. apply somewhere_app, Hmono, Hs.
Qed.

Lemma label_in_trim l raw :
  label_in l (trim raw) = true -> label_in l raw = true.
Proof.
  destruct (trim_decompose raw) as (pre & post & E & _). intros H.
  rewrite E. apply somewhere_infix; [apply label_here_app|exact H].
Qed.

Lemma valued_label_in_trim l raw :
  valued_label_in l (trim raw) = true -> valued_label_in l raw = true.
Proof.
  destruct (trim_decompose raw) as (pre & post & E & _). intros H.
  rewrite E. apply somewhere_infix; [apply valued_label_here_app|exact H].
Qed.

(** ** What [get] returns *)

Lemma get_unfold f text :
  get text (label_text f)
  = trim (or_empty (group 1 (exec true (field_re f) text))).
Proof. unfold get. rewrite field_re_parse. reflexivity. Qed.

(** A captured value comes from the last alternative: the last synonym,
    the delimiter, white space, then the value. *)
Lemma field_re_group f text v :
  group 1 (exec true (field_re f) text) = Some v ->
  exists pre s' r2 w rest',
    text = pre ++ s' /\ after_label (tail_label f) s' = Some r2
    /\ r2 = w ++ v ++ rest' /\ Forall (fun c => is_space c = true) w
    /\ v <> [].
Proof.
  unfold group, exec.
  destruct (exec_from true (field_re f) 0 None text) as [mr|] eqn:E;
    [|discriminate].
  apply exec_from_Some in E.
  destruct E as (pre & s' & b & st' & l & Ht & Hm & Hg).
  rewrite Hg. intros Hv.
  assert (Hin : In st' (m true (field_re f) (MState b s' [])))
    by (rewrite Hm; left; reflexivity).
  apply alts_In in Hin. destruct Hin as [Hc|Hin].
  - rewrite Hc in Hv. discriminate.
  - apply tail_re_In in Hin.
    destruct Hin as (r2 & w & v' & Ha & Hr & Hw & Hne & Hc).
    rewrite Hc in Hv. simpl in Hv. injection Hv as <-.
    exists pre, s', r2, w, (rest st'). auto.
Qed.

Lemma get_nonempty_group f text :
  nonempty (get text (label_text f)) = true ->
  exists v, group 1 (exec true (field_re f) text) = Some v
            /\ nonempty (trim v) = true.
Proof.
  rewrite get_unfold.
  destruct (group 1 (exec true (field_re f) text)) as [v|];
    [|discriminate]. intros H. exists v. auto.
Qed.

Lemma get_valued f text :
  nonempty (get text (label_text f)) = true ->
  valued_label_in (tail_label f) text = true.
Proof.
  intros H. apply get_nonempty_group in H. destruct H as (v & Hg & Hv).
  apply field_re_group in Hg.
  destruct Hg as (pre & s' & r2 & w & rest' & -> & Ha & Hr & Hw & _).
  apply somewhere_app. unfold valued_label_here. rewrite Ha, Hr.
  rewrite (trimStart_app_space _ _ Hw).
  apply trim_nonempty_start in Hv.
  destruct (trimStart v) as [|c t] eqn:Et; [discriminate|].
  rewrite (trimStart_app_keep _ rest' _ _ Et). reflexivity.
Qed.

Lemma get_without_label f text :
  label_in (tail_label f) text = false -> get text (label_text f) = [].
Proof.
  intros H. rewrite get_unfold.
  destruct (group 1 (exec true (field_re f) text)) as [v|] eqn:E;
    [|reflexivity].
  apply field_re_group in E.
  destruct E as (pre & s' & r2 & w & rest' & -> & Ha & _).
  assert (C : label_in (tail_label f) (pre ++ s') = true).
  { apply somewhere_app. unfold label_here. rewrite Ha. reflexivity. }
  congruence.
Qed.

(** With a single label there is no bare alternative: on trimmed text the
    reported match always captures a value that starts with a character
    other than white space. *)
Lemma get_single_label f raw :
  labels_of f = [tail_label f] ->
  valued_label_in (tail_label f) (trim raw) = true ->
  nonempty (get (trim raw) (label_text f)) = true.
Proof.
  intros Hsingle H. rewrite get_unfold.
  assert (Hre : field_re f = tail_re (tail_label f)).
  { unfold field_re. rewrite Hsingle. reflexivity. }
  rewrite Hre. clear Hre Hsingle. set (l := tail_label f) in *.
  apply somewhere_exists in H. destruct H as (pre & s' & Ht & Hs).
  unfold valued_label_here in Hs.
  destruct (after_label l s') as [r2|] eqn:Ha; [|discriminate].
  destruct (trimStart r2) as [|c t] eqn:Er; [discriminate|]. clear Hs.
  unfold exec, group.
  destruct (exec_from true (tail_re l) 0 None (trim raw)) as [mr|] eqn:E.
  - apply exec_from_Some in E.
    destruct E as (pre1 & s1 & b & st' & l1 & Ht1 & Hm & Hg).
    rewrite Hg.
    assert (Hin : In st' (m true (tail_re l) (MState b s1 [])))
      by (rewrite Hm; left; reflexivity).
    apply tail_re_In in Hin.
    destruct Hin as (q2 & w & v & Ha1 & Hq & Hw & Hne & Hc).
    destruct (trimStart q2) as [|c1 t1] eqn:Eq.
    + exfalso. destruct (after_label_suffix _ _ _ Ha1) as (mid & Hmid).
      assert (Hnil : q2 = []).
      { apply (trim_ends raw (pre1 ++ mid)).
        - rewrite Ht1, Hmid, app_assoc. reflexivity.
        - apply trimStart_nil_space. exact Eq. }
      rewrite Hnil in Hq. destruct w; [|discriminate].
      destruct v; [congruence|discriminate].
    + destruct (tail_re_head l b s1 [] q2 c1 t1 Ha1 Eq) as (st2 & l2 & Hm2 & Hc2).
      rewrite Hm in Hm2. injection Hm2 as <- _.
      rewrite Hc2. simpl. apply trim_nonspace_head.
      exact (skip_stops is_space q2 c1 t1 Eq).
  - exfalso. destruct (exec_from_None _ _ _ _ _ E pre s' Ht) as (b & Hb).
    destruct (tail_re_head l b s' [] r2 c t Ha Er) as (st2 & l2 & Hm2 & _).
    congruence.
Qed.

(** ** Labels survive trimming *)

Lemma trimStart_all_space y :
  Forall (fun c => is_space c = true) y -> trimStart y = [].
Proof. induction 1 as [|c y Hc _ IH]; simpl; [|rewrite Hc]; auto. Qed.

Lemma Forall_suffix {A} (P : A -> Prop) (pre r : list A) :
  Forall P (pre ++ r) -> Forall P r.
Proof. intros H. apply Forall_app in H. tauto. Qed.

Lemma starts_ci_app_inv l x y r :
  starts_ci l (x ++ y) = Some r ->
  (exists r', starts_ci l x = Some r' /\ r = r' ++ y)
  \/ (exists pre, y = pre ++ r).
Proof.
  revert x. induction l as [|a l IH]; intros x.
  - simpl. intros [= <-]. left. exists x. auto.
  - destruct x as [|c x].
    + intros H. right. apply starts_ci_suffix in H. exact H.
    + simpl. destruct (eq_ci a c); [apply IH|discriminate].
Qed.

Lemma trimStart_app_inv s y c t :
  Forall (fun c => is_space c = true) y ->
  trimStart (s ++ y) = c :: t ->
  exists t', trimStart s = c :: t' /\ t = t' ++ y.
Proof.
  intros Hy H. destruct (trimStart s) as [|c' t'] eqn:E.
  - apply trimStart_nil_space in E.
    rewrite (trimStart_app_space _ _ E), (trimStart_all_space _ Hy) in H.
    discriminate.
  - rewrite (trimStart_app_keep _ y _ _ E) in H. injection H as <- <-.
    exists t'. auto.
Qed.

Lemma valued_label_here_back l x y :
  Forall (fun c => is_space c = true) y ->
  valued_label_here l (x ++ y) = true -> valued_label_here l x = true.
Proof.
  intros Hy. unfold valued_label_here, after_label.
  destruct (starts_ci l (x ++ y)) as [r|] eqn:E; [|discriminate].
  apply starts_ci_app_inv in E. destruct E as [(r' & -> & ->)|(pre & Hpre)].
  - destruct (trimStart (r' ++ y)) as [|d r2] eqn:E1; [discriminate|].
    apply trimStart_app_inv in E1; [|exact Hy].
    destruct E1 as (t' & -> & ->). destruct (is_delim d); [|discriminate].
    destruct (trimStart (t' ++ y)) as [|c t] eqn:E2; [discriminate|].
    apply trimStart_app_inv in E2; [|exact Hy].
    destruct E2 as (t2 & -> & _). reflexivity.
  - rewrite Hpre in Hy. apply Forall_suffix in Hy.
    rewrite (trimStart_all_space _ Hy). discriminate.
Qed.

Lemma somewhere_drop_leading here w s :
  (forall c t, here (c :: t) = true -> is_space c = false) ->
  Forall (fun c => is_space c = true) w ->
  somewhere here (w ++ s) = true -> somewhere here s = true.
Proof.
  intros Hfirst Hw. induction Hw as [|c w Hc _ IH]; [auto|].
  simpl. intros H. apply orb_true_iff in H. destruct H as [H|H]; [|auto].
  apply Hfirst in H. congruence.
Qed.

Lemma somewhere_drop_trailing here s y :
  here [] = false ->
  (forall x z, Forall (fun c => is_space c = true) z ->
               here (x ++ z) = true -> here x = true) ->
  Forall (fun c => is_space c = true) y ->
  somewhere here (s ++ y) = true -> somewhere here s = true.
Proof.
  intros Hnil Hback Hy. induction s as [|c s IH].
  - simpl. intros H. apply somewhere_exists in H.
    destruct H as (pre & s' & E & Hs). rewrite E in Hy.
    apply Forall_suffix in Hy.
    apply (Hback [] s' Hy) in Hs. congruence.
  - simpl. intros H. apply orb_true_iff in H. destruct H as [H|H].
    + apply (Hback (c :: s) y Hy) in H. rewrite H. reflexivity.
    + rewrite (IH H). apply orb_true_r.
Qed.

Lemma eq_ci_letter_nonspace a c :
  is_lower a || is_upper a = true -> eq_ci a c = true -> is_space c = false.
Proof.
  intros Ha H. apply letter_range in Ha. unfold eq_ci in H.
  destruct (is_space c) eqn:E; [|reflexivity]. apply space_range in E.
  apply orb_true_iff in H. rewrite !N.eqb_eq in H.
  destruct (N.eq_dec (other_case c) c) as [Hoc|Hoc].
  - rewrite Hoc in H. lia.
  - apply other_case_letter in Hoc. lia.
Qed.

(** A label that starts with a letter and has a value is still there after
    [trim]. *)
Lemma valued_label_in_untrim a l raw :
  is_lower a || is_upper a = true ->
  valued_label_in (a :: l) raw = true ->
  valued_label_in (a :: l) (trim raw) = true.
Proof.
  intros Ha. destruct (trim_decompose raw) as (pre & post & E & Hpre & Hpost).
  rewrite E at 1. unfold valued_label_in. intros H.
  apply somewhere_drop_leading in H; [|clear H|exact Hpre].
  - apply somewhere_drop_trailing in H; auto.
    intros x z. apply valued_label_here_back.
  - intros c t. unfold valued_label_here, after_label. simpl.
    destruct (eq_ci a c) eqn:Ec; [|discriminate]. intros _.
    exact (eq_ci_letter_nonspace a c Ha Ec).
Qed.

(** ** The steps label *)

Lemma steps_re_In b s cs st' :
  In st' (m true steps_re (MState b s cs)) ->
  label_here (js "step") s = true \/ label_here (js "steps") s = true.
Proof.
  unfold steps_re, label_here, after_label.
  match goal with |- In _ (m true (lit _ ?k0) _) -> _ =>
    destruct (m_lit (js "step") k0 b s cs) as (b1 & ->) end.
  destruct (starts_ci (js "step") s) as [r|] eqn:E; [|intros []].
  cbn [m]. intros H. apply in_flat_map in H. destruct H as (st1 & H1 & H2).
  apply in_app_or in H1. destruct H1 as [H1|[<-|[]]].
  - right. apply filter_In in H1. destruct H1 as [H1 _].
    unfold one in H1. cbn [rest caps] in H1.
    destruct r as [|c t]; [destruct H1|]. rewrite class_char in H1.
    destruct (eq_ci 115 c) eqn:Ec; [|destruct H1].
    destruct H1 as [<-|[]].
    change (js "steps") with (js "step" ++ [115]).
    rewrite (starts_ci_snoc _ _ _ _ _ E Ec).
    match type of H2 with In _ (m true (labelled ?k0) _) =>
      destruct (m_labelled k0 (Some c) t cs) as (b2 & Hb); rewrite Hb in H2 end.
    destruct (trimStart t) as [|d r2]; [destruct H2|].
    destruct (is_delim d); [reflexivity|destruct H2].
  - left.
    match type of H2 with In _ (m true (labelled ?k0) _) =>
      destruct (m_labelled k0 b1 r cs) as (b2 & Hb); rewrite Hb in H2 end.
    destruct (trimStart r) as [|d r2]; [destruct H2|].
    destruct (is_delim d); [reflexivity|destruct H2].
Qed.

Lemma parse_steps_without_label text :
  has_label steps_labels text = false -> parse_steps text = [].
Proof.
  intros H. unfold has_label, steps_labels in H. cbn [existsb] in H.
  rewrite orb_false_r in H. apply orb_false_iff in H. destruct H as [H1 H2].
  unfold parse_steps. rewrite steps_re_parse. unfold exec.
  destruct (exec_from true steps_re 0 None text) as [mr|] eqn:E.
  - exfalso. apply exec_from_Some in E.
    destruct E as (pre & s' & b & st' & l & -> & Hm & _).
    assert (Hin : In st' (m true steps_re (MState b s' [])))
      by (rewrite Hm; left; reflexivity).
    apply steps_re_In in Hin. unfold label_in in *.
    destruct Hin as [Hin|Hin]; apply (somewhere_app _ pre) in Hin; congruence.
  - vm_compute. reflexivity.
Qed.

(** ** The environment field *)

Lemma starts_ci_prefix l1 l2 s r :
  starts_ci (l1 ++ l2) s = Some r -> exists r', starts_ci l1 s = Some r'.
Proof.
  revert s. induction l1 as [|a l1 IH]; intros s; simpl.
  - eauto.
  - destruct s as [|c s]; [discriminate|].
    destruct (eq_ci a c); [apply IH|discriminate].
Qed.

Lemma get_env text : get text (label_text Fenv) = [].
Proof.
  rewrite get_unfold. unfold exec, group.
  destruct (exec_from true (field_re Fenv) 0 None text) as [mr|] eqn:E;
    [|reflexivity].
  apply exec_from_Some in E.
  destruct E as (pre & s' & b & st' & l & _ & Hm & Hg). rewrite Hg.
  change (field_re Fenv)
    with (Alt (lit (js "env") Empty) (tail_re (js "environment"))) in Hm.
  cbn [m] in Hm.
  destruct (m_lit (js "env") Empty b s' []) as (b1 & E1). rewrite E1 in Hm.
  destruct (starts_ci (js "env") s') as [r|] eqn:Es.
  - cbn [m List.app] in Hm. injection Hm as <- _. reflexivity.
  - exfalso. unfold tail_re in Hm.
    destruct (m_lit (js "environment") (labelled value_re) b s' [])
      as (b2 & E2).
    rewrite E2 in Hm.
    destruct (starts_ci (js "environment") s') as [r|] eqn:Es2;
      [|discriminate].
    change (js "environment") with (js "env" ++ js "ironment") in Es2.
    apply starts_ci_prefix in Es2. destruct Es2 as (r' & Es2). congruence.
Qed.

(** ** Rendering *)

Lemma compact_Some s l :
  nonempty s = true -> compact (Some s :: l) = s :: compact l.
Proof. destruct s; [discriminate|reflexivity]. Qed.

Lemma compact_line_if c s l :
  nonempty s = true ->
  compact (line_if c s :: l) = (if c then [s] else []) ++ compact l.
Proof. destruct c; [|reflexivity]. destruct s; [discriminate|reflexivity]. Qed.

Lemma join_nonempty sep x t :
  nonempty x = true -> nonempty (join sep (x :: t)) = true.
Proof. destruct x; [discriminate|]. destruct t; reflexivity. Qed.

Lemma join_cons sep x y t :
  join sep (x :: y :: t) = x ++ sep ++ join sep (y :: t).
Proof. reflexivity. Qed.

Lemma description_nonempty ts p :
  nonempty (description (buildFrenchTemplates ts p)) = true.
Proof.
  cbn [buildFrenchTemplates description]. unfold description_lines.
  rewrite compact_Some by reflexivity. apply join_nonempty. reflexivity.
Qed.

Lemma join_app_cons sep (l1 : list jsstring) x l2 :
  l1 <> [] ->
  exists pre, join sep (l1 ++ x :: l2) = pre ++ sep ++ join sep (x :: l2).
Proof.
  induction l1 as [|a l1 IH]; [congruence|]. intros _.
  destruct l1 as [|b l1].
  - exists a. reflexivity.
  - destruct IH as (pre & E); [discriminate|].
    exists (a ++ sep ++ pre). change ((a :: b :: l1) ++ x :: l2)
      with (a :: b :: (l1 ++ x :: l2)).
    rewrite join_cons. change (b :: l1 ++ x :: l2) with ((b :: l1) ++ x :: l2).
    rewrite E, <- !app_assoc. reflexivity.
Qed.

(** A block between two others stands between two separators. *)
Lemma join_contains sep (l1 : list jsstring) x y l2 :
  l1 <> [] -> contains (join sep (l1 ++ x :: y :: l2)) (sep ++ x ++ sep).
Proof.
  intros H. destruct (join_app_cons sep l1 x (y :: l2) H) as (pre & E).
  exists pre, (join sep (y :: l2)). rewrite E, join_cons, <- !app_assoc.
  reflexivity.
Qed.

(** The blocks of the work notes that survive [filter(Boolean)]. *)
Lemma workNotes_blocks_kept ts p :
  compact (workNotes_blocks ts p (description (buildFrenchTemplates ts p))) =
  acknowledged ts
  :: (if truthy (user p) then [caller_line p] else [])
     ++ [description (buildFrenchTemplates ts p); actions_block p;
         next_actions; monitoring].
Proof.
  pose proof (description_nonempty ts p) as Hd.
  set (d := description (buildFrenchTemplates ts p)) in *.
  unfold workNotes_blocks.
  rewrite compact_Some by reflexivity.
  rewrite compact_line_if by reflexivity.
  rewrite compact_Some by exact Hd.
  rewrite !compact_Some by reflexivity.
  reflexivity.
Qed.

Lemma workNotes_cut ts p :
  exists before_blocks,
    before_blocks <> []
    /\ compact (workNotes_blocks ts p (description (buildFrenchTemplates ts p)))
       = before_blocks ++ actions_block p :: next_actions :: [monitoring].
Proof.
  exists (acknowledged ts
          :: (if truthy (user p) then [caller_line p] else [])
             ++ [description (buildFrenchTemplates ts p)]).
  split; [discriminate|]. rewrite workNotes_blocks_kept.
  cbn [List.app]. rewrite <- app_assoc. reflexivity.
Qed.

Lemma workNotes_join ts p :
  workNotes (buildFrenchTemplates ts p) =
  join [NL; NL]
       (compact (workNotes_blocks ts p (description (buildFrenchTemplates ts p)))).
Proof. reflexivity. Qed.

Lemma workNotes_contains_actions ts p :
  contains (workNotes (buildFrenchTemplates ts p))
           ([NL; NL] ++ actions_block p ++ [NL; NL]).
Proof.
  rewrite workNotes_join. destruct (workNotes_cut ts p) as (l1 & Hne & ->).
  apply join_contains. exact Hne.
Qed.

Lemma number_to_string_examples :
  number_to_string 1 = js "1" /\ number_to_string 10 = js "10"
  /\ number_to_string 123 = js "123".
Proof. repeat split; reflexivity. Qed.

Lemma mapi_length {A B} (f : A -> nat -> B) i l :
  List.length (mapi f i l) = List.length l.
Proof. revert i. induction l; intros i; simpl; auto. Qed.

Lemma mapi_nth {A B} (f : A -> nat -> B) k l i x :
  nth_error l i = Some x -> nth_error (mapi f k l) i = Some (f x (k + i)%nat).
Proof.
  revert k i. induction l as [|a l IH]; intros k [|i]; simpl; try discriminate.
  - intros [= ->]. rewrite Nat.add_0_r. reflexivity.
  - intros H. rewrite (IH (S k) i H). f_equal. f_equal. lia.
Qed.

(** The lines of the user comment that survive [filter(Boolean)]. *)
Lemma userComment_lines_kept p :
  compact (userComment_lines p) =
  if truthy (impact p)
  then [greeting; investigation_line p; impact_line p; reassurance; closing]
  else [greeting; investigation_line p; reassurance; closing].
Proof.
  unfold userComment_lines.
  assert (Hi : nonempty (investigation_line p) = true).
  { unfold investigation_line. destruct (truthy (app p)); reflexivity. }
  rewrite compact_Some by reflexivity.
  rewrite compact_Some by exact Hi.
  rewrite compact_line_if by reflexivity.
  rewrite !compact_Some by reflexivity.
  destruct (truthy (impact p)); reflexivity.
Qed.

Lemma userComment_join ts p :
  userComment (buildFrenchTemplates ts p) =
  join [32; NL] (compact (userComment_lines p)).
Proof. reflexivity. Qed.

Lemma join4 sep (a b c d : jsstring) :
  join sep [a; b; c; d] = a ++ sep ++ b ++ sep ++ c ++ sep ++ d.
Proof. reflexivity. Qed.

Lemma join5 sep (a b c d e : jsstring) :
  join sep [a; b; c; d; e] = a ++ sep ++ b ++ sep ++ c ++ sep ++ d ++ sep ++ e.
Proof. reflexivity. Qed.

Lemma userComment_layout ts p :
  userComment (buildFrenchTemplates ts p) =
  if truthy (impact p)
  then greeting ++ [32; NL] ++ investigation_line p ++ [32; NL]
       ++ impact_line p ++ [32; NL] ++ reassurance ++ [32; NL] ++ closing
  else greeting ++ [32; NL] ++ investigation_line p ++ [32; NL]
       ++ reassurance ++ [32; NL] ++ closing.
Proof.
  rewrite userComment_join, userComment_lines_kept.
  destruct (truthy (impact p)); [apply join5|apply join4].
Qed.

Lemma titre_length ts p :
  (List.length (titre (buildFrenchTemplates ts p)) <= 120)%nat.
Proof.
  cbn [buildFrenchTemplates titre].
  destruct (nonempty (slice0 120 (join (js " ") (compact (titre_parts p))))).
  - unfold slice0. apply firstn_le_length.
  - vm_compute. lia.
Qed.

(** ** Empty fields render as undefined ones *)

Ltac blank_field :=
  match goal with
  | |- context [blank (?f ?p)] => is_var p; destruct (f p) as [[|? ?]|] eqn:?
  end.

Ltac by_blank_cases :=
  repeat blank_field; cbn [truthy blank str line_if];
  first [ reflexivity
        | match goal with H : Some [] <> Some [] |- _ => destruct (H eq_refl) end ].

Ltac each_line tac := repeat (apply (f_equal2 (@cons _)); [tac|]); reflexivity.

Lemma titre_parts_blank p : titre_parts (undefine_empty p) = titre_parts p.
Proof.
  unfold titre_parts, undefine_empty. cbn [app error impact].
  each_line by_blank_cases.
Qed.

Lemma userComment_lines_blank p :
  userComment_lines (undefine_empty p) = userComment_lines p.
Proof.
  unfold userComment_lines, investigation_line, error_suffix, impact_line,
    undefine_empty.
  cbn [app error impact]. each_line by_blank_cases.
Qed.

Lemma description_lines_blank p :
  app p <> Some [] ->
  description_lines (undefine_empty p) = description_lines p.
Proof.
  intros Happ. unfold description_lines, impact_line, undefine_empty.
  cbn [app env impact urgency error when region].
  each_line by_blank_cases.
Qed.

Lemma steps_text_blank p : steps_text (undefine_empty p) = steps_text p.
Proof. reflexivity. Qed.

Lemma workNotes_blocks_blank ts p d :
  workNotes_blocks ts (undefine_empty p) d = workNotes_blocks ts p d.
Proof.
  unfold workNotes_blocks, caller_line, actions_block.
  rewrite steps_text_blank. unfold undefine_empty. cbn [user].
  each_line by_blank_cases.
Qed.

Lemma render_blank ts p :
  titre (buildFrenchTemplates ts (undefine_empty p))
  = titre (buildFrenchTemplates ts p)
  /\ userComment (buildFrenchTemplates ts (undefine_empty p))
     = userComment (buildFrenchTemplates ts p)
  /\ (app p <> Some [] ->
      description (buildFrenchTemplates ts (undefine_empty p))
      = description (buildFrenchTemplates ts p)
      /\ workNotes (buildFrenchTemplates ts (undefine_empty p))
         = workNotes (buildFrenchTemplates ts p)).
Proof.
  cbn [buildFrenchTemplates titre userComment description workNotes].
  rewrite titre_parts_blank, userComment_lines_blank, workNotes_blocks_blank.
  repeat split; intros; rewrite description_lines_blank by assumption;
    reflexivity.
Qed.

(** ** Inputs without labels *)

Lemma existsb_false {A} (f : A -> bool) l x :
  existsb f l = false -> In x l -> f x = false.
Proof.
  intros H Hin. destruct (f x) eqn:E; [|reflexivity].
  assert (existsb f l = true) by (apply existsb_exists; eauto). congruence.
Qed.

Lemma no_label_trim l raw :
  label_in l raw = false -> label_in l (trim raw) = false.
Proof.
  intros H. destruct (label_in l (trim raw)) eqn:E; [|reflexivity].
  apply label_in_trim in E. congruence.
Qed.

Lemma has_label_trim labels raw :
  has_label labels raw = false -> has_label labels (trim raw) = false.
Proof.
  unfold has_label. induction labels as [|l ls IH]; [reflexivity|].
  simpl. intros H. apply orb_false_iff in H. destruct H as [H1 H2].
  rewrite (no_label_trim _ _ H1), (IH H2). reflexivity.
Qed.

Lemma tail_label_in f : In (tail_label f) (labels_of f).
Proof.
  destruct f;
    unfold tail_label, labels_of, app_labels, env_labels, impact_labels,
      urgency_labels, error_labels, when_labels, region_labels, user_labels,
      ticket_labels;
    cbn [last In]; repeat (first [left; reflexivity | right]).
Qed.

Lemma labels_recognized f l : In l (labels_of f) -> In l recognized_labels.
Proof.
  unfold recognized_labels. intros H. rewrite !in_app_iff.
  destruct f; cbn [labels_of] in H; tauto.
Qed.

Lemma field_without_label f raw :
  has_label (labels_of f) raw = false ->
  field_of f (parseInput raw) = Some [].
Proof.
  intros H. rewrite parseInput_fields. f_equal. apply get_without_label.
  apply no_label_trim.
  exact (existsb_false _ _ _ H (tail_label_in f)).
Qed.

Lemma has_label_sub (l1 l2 : list jsstring) s :
  (forall l, In l l1 -> In l l2) ->
  has_label l2 s = false -> has_label l1 s = false.
Proof.
  intros Hsub H. unfold has_label in *.
  destruct (existsb (fun l => label_in l s) l1) eqn:E; [|reflexivity].
  apply existsb_exists in E. destruct E as (l & Hl & E).
  rewrite (existsb_false _ _ _ H (Hsub l Hl)) in E. discriminate.
Qed.

Lemma steps_labels_recognized l : In l steps_labels -> In l recognized_labels.
Proof. unfold recognized_labels. rewrite !in_app_iff. tauto. Qed.

Lemma titre_fallback ts p :
  truthy (app p) = false -> truthy (error p) = false ->
  truthy (impact p) = false ->
  titre (buildFrenchTemplates ts p) = fallback_title.
Proof.
  intros H1 H2 H3. cbn [buildFrenchTemplates titre]. unfold titre_parts.
  rewrite H1, H2, H3. reflexivity.
Qed.

Lemma steps_text_nonempty p : nonempty (steps_text p) = true.
Proof.
  unfold steps_text. destruct (steps p) as [[|s l]|]; try reflexivity.
  cbn [mapi]. apply join_nonempty. reflexivity.
Qed.

(** ** The remote call *)

Lemma libreTranslate_fallback fn fetch text endpoint :
  remote_failed (fetch (translate_request text endpoint)) = true ->
  libreTranslate fn fetch text endpoint
  = Returned (JString (simpleTranslate fn text)).
Proof.
  unfold libreTranslate, remote_failed, try_catch, bind, awaited.
  destruct (fetch (translate_request text endpoint)) as [res|e];
    [|reflexivity].
  destruct (ok res); cbn [negb orb].
  - destruct (res_json res); [discriminate|reflexivity].
  - intros _. destruct (res_text res); reflexivity.
Qed.

(** ** Step numbers *)

Lemma digits_revapp u v :
  bytes_of (NilEmpty.string_of_uint (Decimal.revapp u v))
  = bytes_of (NilEmpty.string_of_uint (Decimal.revapp u Decimal.Nil))
    ++ bytes_of (NilEmpty.string_of_uint v).
Proof.
  revert v. induction u as [|u IH|u IH|u IH|u IH|u IH|u IH|u IH|u IH|u IH|u IH];
    intros v; [reflexivity|..];
    cbn [Decimal.revapp]; rewrite IH; symmetry; rewrite IH;
    rewrite <- app_assoc; reflexivity.
Qed.

Lemma string_of_uint_nonnil d :
  d <> Decimal.Nil -> NilZero.string_of_uint d = NilEmpty.string_of_uint d.
Proof. destruct d; [congruence|reflexivity..]. Qed.

Lemma to_lu_nonnil n : DecimalNat.Unsigned.to_lu n <> Decimal.Nil.
Proof.
  induction n as [|n IH]; [discriminate|].
  rewrite DecimalNat.Unsigned.to_lu_succ. destruct (DecimalNat.Unsigned.to_lu n); discriminate.
Qed.

Lemma to_uint_nonnil n : Nat.to_uint n <> Decimal.Nil.
Proof.
  rewrite DecimalNat.Unsigned.to_uint_alt. intros H. apply DecimalFacts.rev_nil_inv in H.
  exact (to_lu_nonnil n H).
Qed.

Lemma to_lu_digit q r :
  (0 < q)%nat -> (r < 10)%nat ->
  DecimalNat.Unsigned.to_lu (r + 10 * q) = digit_cons r (DecimalNat.Unsigned.to_lu q).
Proof.
  intros Hq Hr.
  assert (E : DecimalNat.Unsigned.to_lu (10 * q) = Decimal.D0 (DecimalNat.Unsigned.to_lu q))
    by (apply DecimalNat.Unsigned.to_lu_tenfold; lia).
  do 10 (destruct r as [|r];
         [cbn [Nat.add]; rewrite ?DecimalNat.Unsigned.to_lu_succ, E; reflexivity|]).
  lia.
Qed.

Lemma number_to_string_digit (n : nat) :
  (n < 10)%nat -> number_to_string n = [48 + N.of_nat n].
Proof.
  intros H. do 10 (destruct n as [|n]; [reflexivity|]). lia.
Qed.

Lemma number_to_string_tens (q r : nat) :
  (0 < q)%nat -> (r < 10)%nat ->
  number_to_string (10 * q + r) = number_to_string q ++ [48 + N.of_nat r].
Proof.
  intros Hq Hr. unfold number_to_string.
  rewrite !string_of_uint_nonnil by apply to_uint_nonnil.
  rewrite !DecimalNat.Unsigned.to_uint_alt, (Nat.add_comm (10 * q)), to_lu_digit by assumption.
  unfold Decimal.rev.
  assert (E : Decimal.revapp (digit_cons r (DecimalNat.Unsigned.to_lu q)) Decimal.Nil
              = Decimal.revapp (DecimalNat.Unsigned.to_lu q) (digit_cons r Decimal.Nil)).
  { do 10 (destruct r as [|r]; [reflexivity|]). lia. }
  rewrite E, digits_revapp. f_equal.
  do 10 (destruct r as [|r]; [reflexivity|]). lia.
Qed.

Lemma step_line_text (s : jsstring) (i : nat) (num : jsstring) :
  js "- Étape " ++ number_to_string (i + 1) ++ js ": " = num ->
  step_line s i = num ++ s.
Proof.
  intros <-. unfold step_line. rewrite <- !app_assoc. reflexivity.
Qed.

Lemma join3 sep (a b c : jsstring) :
  join sep [a; b; c] = a ++ sep ++ b ++ sep ++ c.
Proof. reflexivity. Qed.

Lemma steps_text_three p a b c :
  steps p = Some [a; b; c] ->
  steps_text p
  = (js "- Étape 1: " ++ a) ++ [NL]
    ++ (js "- Étape 2: " ++ b) ++ [NL]
    ++ (js "- Étape 3: " ++ c).
Proof.
  intros H. unfold steps_text. rewrite H. cbn [mapi].
  rewrite (step_line_text a 0 (js "- Étape 1: ")) by (vm_compute; reflexivity).
  rewrite (step_line_text b 1 (js "- Étape 2: ")) by (vm_compute; reflexivity).
  rewrite (step_line_text c 2 (js "- Étape 3: ")) by (vm_compute; reflexivity).
  apply join3.
Qed.

(** ** Optional lines *)

(** An optional line: rendered for a non-empty field only. *)
Lemma compact_optional (pre suf : jsstring) (o : option jsstring) l :
  nonempty pre = true ->
  compact (line_if (truthy o) (pre ++ str o ++ suf) :: l)
  = match o with
    | Some (c :: v) => [pre ++ c :: v ++ suf]
    | _ => []
    end ++ compact l.
Proof.
  intros H. destruct o as [[|c v]|]; cbn [truthy line_if str];
    [reflexivity| |reflexivity].
  rewrite compact_Some; [reflexivity|].
  destruct pre; [discriminate|reflexivity].
Qed.

Lemma description_layout ts p :
  description (buildFrenchTemplates ts p)
  = join [NL]
      ([js "Contexte: "
        ++ match app p with
           | Some a => a
           | None => js "application non précisée"
           end
        ++ match env p with
           | Some (c :: v) => js " (env: " ++ c :: v ++ js ")"
           | _ => []
           end
        ++ js "."]
       ++ match when p with
          | Some (c :: v) => [js "Début observé: " ++ c :: v ++ js "."]
          | _ => []
          end
       ++ match region p with
          | Some (c :: v) => [js "Zone concernée: " ++ c :: v ++ js "."]
          | _ => []
          end
       ++ match impact p with
          | Some (c :: v) => [js "Impact déclaré: " ++ c :: v ++ js "."]
          | _ => []
          end
       ++ match urgency p with
          | Some (c :: v) => [js "Priorité/Sévérité: " ++ c :: v ++ js "."]
          | _ => []
          end
       ++ match error p with
          | Some (c :: v) => [js "Symptômes/erreur: " ++ c :: v ++ js "."]
          | _ => []
          end).
Proof.
  cbn [buildFrenchTemplates description]. f_equal.
  unfold description_lines, impact_line.
  rewrite compact_Some by reflexivity.
  rewrite !compact_optional by reflexivity.
  cbn [compact flat_map]. rewrite app_nil_r.
  change (?x :: ?l) with ([x] ++ l) at 1. f_equal. f_equal. f_equal. f_equal.
  destruct (env p) as [[|c v]|]; reflexivity.
Qed.

Lemma titre_layout ts p :
  titre (buildFrenchTemplates ts p)
  = let t :=
      slice0 120
        (join (js " ")
           (match app p with
            | Some (c :: v) => [c :: v ++ js ":"]
            | _ => []
            end
            ++ match error p with
               | Some (c :: v) => [c :: v]
               | _ => []
               end
            ++ match impact p with
               | Some (c :: v) => [js "– impact " ++ c :: v]
               | _ => []
               end)) in
    if nonempty t then t else js "Incident – détails à préciser".
Proof.
  cbn [buildFrenchTemplates titre]. cbv zeta.
  assert (E : compact (titre_parts p)
              = match app p with
                | Some (c :: v) => [c :: v ++ js ":"]
                | _ => []
                end
                ++ match error p with
                   | Some (c :: v) => [c :: v]
                   | _ => []
                   end
                ++ match impact p with
                   | Some (c :: v) => [js "– impact " ++ c :: v]
                   | _ => []
                   end).
  { unfold titre_parts.
    destruct (app p) as [[|c1 v1]|], (error p) as [[|c2 v2]|],
      (impact p) as [[|c3 v3]|]; reflexivity. }
  rewrite E. reflexivity.
Qed.

Lemma userComment_optional ts p :
  userComment (buildFrenchTemplates ts p)
  = join [32; NL]
      ([js "Bonjour,"; investigation_line p]
       ++ match impact p with
          | Some (c :: v) => [js "Impact déclaré: " ++ c :: v ++ js "."]
          | _ => []
          end
       ++ [js "Nos équipes sont mobilisées. Nous vous tiendrons informé de l'avancement.";
           js "Merci de votre patience."]).
Proof.
  rewrite userComment_join. f_equal. unfold userComment_lines, impact_line.
  assert (Hi : nonempty (investigation_line p) = true).
  { unfold investigation_line. destruct (truthy (app p)); reflexivity. }
  rewrite compact_Some by reflexivity.
  rewrite compact_Some by exact Hi.
  rewrite compact_optional by reflexivity.
  rewrite !compact_Some by reflexivity.
  reflexivity.
Qed.

Lemma workNotes_optional ts p :
  workNotes (buildFrenchTemplates ts p)
  = join [NL; NL]
      ([js "[" ++ ts ++ js "] Prise en charge de l'incident."]
       ++ match user p with
          | Some (c :: v) => [js "Appelant: " ++ c :: v ++ js "."]
          | _ => []
          end
       ++ [description (buildFrenchTemplates ts p);
           js "Actions réalisées:" ++ [NL] ++ steps_text p;
           js "Prochaines actions: analyse des journaux, corrélation des alertes, vérification dépendances.";
           js "Surveillance continue en place."]).
Proof.
  rewrite workNotes_join. f_equal.
  pose proof (description_nonempty ts p) as Hd.
  set (d := description (buildFrenchTemplates ts p)) in *.
  unfold workNotes_blocks, caller_line.
  rewrite compact_Some by reflexivity.
  rewrite compact_optional by reflexivity.
  rewrite compact_Some by exact Hd.
  rewrite !compact_Some by reflexivity.
  reflexivity.
Qed.

Lemma description_without_labels ts raw :
  (forall f, In f [Fwhen; Fregion; Fimpact; Furgency; Ferror] ->
             has_label (labels_of f) raw = false) ->
  description (buildFrenchTemplates ts (parseInput raw))
  = js "Contexte: " ++ or_empty (app (parseInput raw)) ++ js ".".
Proof.
  intros H.
  assert (F : forall f, In f [Fwhen; Fregion; Fimpact; Furgency; Ferror] ->
                        field_of f (parseInput raw) = Some []).
  { intros f Hf. apply field_without_label. apply H. exact Hf. }
  assert (He : env (parseInput raw) = Some []).
  { change (env (parseInput raw)) with (field_of Fenv (parseInput raw)).
    rewrite parseInput_fields, get_env. reflexivity. }
  assert (Ha : app (parseInput raw)
               = Some (get (trim raw) (label_text Fapp))) by reflexivity.
  pose proof (F Fwhen) as Hw. pose proof (F Fregion) as Hr.
  pose proof (F Fimpact) as Hi. pose proof (F Furgency) as Hu.
  pose proof (F Ferror) as Hx. cbn [field_of In] in Hw, Hr, Hi, Hu, Hx.
  rewrite description_layout, He, Ha, Hw, Hr, Hi, Hu, Hx by tauto.
  cbn [or_empty List.app join]. reflexivity.
Qed.

(** * The claims *)

(** C1. On the example input of the specification the code extracts
    neither the application nor the error code: in the patterns built for
    [app|application|service|system] and [error|err|code] the bare words
    [app] and [error] match first and capture nothing.  Only the impact and
    the steps are extracted, and the title is ["– impact high"], not
    ["Checkout: HTTP 500 – impact high"]. *)
Theorem C1_example_extraction :
  app (parseInput example_input) = Some []
  /\ error (parseInput example_input) = Some []
  /\ impact (parseInput example_input) = Some (js "high")
  /\ steps (parseInput example_input)
     = Some [js "restart pod"; js "clear cache"]
  /\ (forall ts, titre (buildFrenchTemplates ts (parseInput example_input))
                 = js "– impact high")
  /\ js "– impact high" <> js "Checkout: HTTP 500 – impact high".
Proof.
  repeat split; try (vm_compute; reflexivity).
  vm_compute. discriminate.
Qed.

(** C2, as stated, fails on the empty input: the application field is
    present (it is a string, not undefined) although no label matched, and
    it is the empty string. *)
Lemma C2_counterexample :
  ~ ((field_of Fapp (parseInput []) <> None
      <-> has_label (labels_of Fapp) [] = true)
     /\ field_of Fapp (parseInput []) <> Some []).
Proof. intros [_ H]. apply H. vm_compute. reflexivity. Qed.

(** C2, amended.  For every input each scalar field of the record is a
    string, never undefined; a field none of whose labels (a synonym, optional
    white space, [:] or [=]) occurs in the input is the empty string, which
    is how absence is represented; the impact field, the one with a single
    label, is non-empty exactly when the input has [impact], the delimiter
    and a value.  Rendering treats an empty field as an undefined one: title
    and user comment are the same, and so are description and work notes
    when the application is not the empty string.  The optional line of a
    field is rendered exactly when the field is a non-empty string and is
    left out otherwise, never rendered empty: the description is its context
    line followed by one line for each non-empty field among start, region,
    impact, urgency and error, the user comment has the declared-impact line
    only for a non-empty impact, the work notes have the caller line only for
    a non-empty user, and the title has a part only for a non-empty
    application, error and impact.  So for an input with no label of start,
    region, impact, urgency and error the description is the context line
    alone. *)
Theorem C2_absence_is_empty_string (raw : jsstring) :
  (forall f, exists v, field_of f (parseInput raw) = Some v)
  /\ (forall f, has_label (labels_of f) raw = false ->
                field_of f (parseInput raw) = Some [])
  /\ (truthy (impact (parseInput raw)) = true
      <-> valued_label_in (js "impact") raw = true)
  /\ (forall ts p,
        titre (buildFrenchTemplates ts (undefine_empty p))
        = titre (buildFrenchTemplates ts p)
        /\ userComment (buildFrenchTemplates ts (undefine_empty p))
           = userComment (buildFrenchTemplates ts p)
        /\ (app p <> Some [] ->
            description (buildFrenchTemplates ts (undefine_empty p))
            = description (buildFrenchTemplates ts p)
            /\ workNotes (buildFrenchTemplates ts (undefine_empty p))
               = workNotes (buildFrenchTemplates ts p)))
  /\ (forall ts p,
        description (buildFrenchTemplates ts p)
        = join [NL]
            ([js "Contexte: "
              ++ match app p with
                 | Some a => a
                 | None => js "application non précisée"
                 end
              ++ match env p with
                 | Some (c :: v) => js " (env: " ++ c :: v ++ js ")"
                 | _ => []
                 end
              ++ js "."]
             ++ match when p with
                | Some (c :: v) => [js "Début observé: " ++ c :: v ++ js "."]
                | _ => []
                end
             ++ match region p with
                | Some (c :: v) => [js "Zone concernée: " ++ c :: v ++ js "."]
                | _ => []
                end
             ++ match impact p with
                | Some (c :: v) => [js "Impact déclaré: " ++ c :: v ++ js "."]
                | _ => []
                end
             ++ match urgency p with
                | Some (c :: v) =>
                  [js "Priorité/Sévérité: " ++ c :: v ++ js "."]
                | _ => []
                end
             ++ match error p with
                | Some (c :: v) => [js "Symptômes/erreur: " ++ c :: v ++ js "."]
                | _ => []
                end)
        /\ userComment (buildFrenchTemplates ts p)
           = join [32; NL]
               ([js "Bonjour,"; investigation_line p]
                ++ match impact p with
                   | Some (c :: v) =>
                     [js "Impact déclaré: " ++ c :: v ++ js "."]
                   | _ => []
                   end
                ++ [js "Nos équipes sont mobilisées. Nous vous tiendrons informé de l'avancement.";
                    js "Merci de votre patience."])
        /\ workNotes (buildFrenchTemplates ts p)
           = join [NL; NL]
               ([js "[" ++ ts ++ js "] Prise en charge de l'incident."]
                ++ match user p with
                   | Some (c :: v) => [js "Appelant: " ++ c :: v ++ js "."]
                   | _ => []
                   end
                ++ [description (buildFrenchTemplates ts p);
                    js "Actions réalisées:" ++ [NL] ++ steps_text p;
                    js "Prochaines actions: analyse des journaux, corrélation des alertes, vérification dépendances.";
                    js "Surveillance continue en place."])
        /\ titre (buildFrenchTemplates ts p)
           = let t :=
               slice0 120
                 (join (js " ")
                    (match app p with
                     | Some (c :: v) => [c :: v ++ js ":"]
                     | _ => []
                     end
                     ++ match error p with
                        | Some (c :: v) => [c :: v]
                        | _ => []
                        end
                     ++ match impact p with
                        | Some (c :: v) => [js "– impact " ++ c :: v]
                        | _ => []
                        end)) in
             if nonempty t then t else js "Incident – détails à préciser")
  /\ (forall ts,
        (forall f, In f [Fwhen; Fregion; Fimpact; Furgency; Ferror] ->
                   has_label (labels_of f) raw = false) ->
        description (buildFrenchTemplates ts (parseInput raw))
        = js "Contexte: " ++ or_empty (app (parseInput raw)) ++ js ".").
Proof.
  split; [|split; [|split; [|split; [|split]]]].
  - intros f. rewrite parseInput_fields. eauto.
  - intros f. apply field_without_label.
  - change (impact (parseInput raw)) with (field_of Fimpact (parseInput raw)).
    rewrite parseInput_fields. cbn [truthy].
    change (match get (trim raw) (label_text Fimpact) with
            | [] => false | _ :: _ => true end)
      with (nonempty (get (trim raw) (label_text Fimpact))).
    split; intros H.
    + apply valued_label_in_trim. exact (get_valued Fimpact _ H).
    + apply (get_single_label Fimpact raw); [reflexivity|].
      apply (valued_label_in_untrim 105); [reflexivity|exact H].
  - apply render_blank.
  - intros ts p. split; [apply description_layout|].
    split; [apply userComment_optional|].
    split; [apply workNotes_optional|apply titre_layout].
  - intros ts. apply description_without_labels.
Qed.

(** The input ["impact: high"] has the impact label with a value. *)
Lemma C2_witness :
  truthy (impact (parseInput (js "impact: high"))) = true.
Proof.
  apply (proj2 (proj1 (proj2 (proj2
           (C2_absence_is_empty_string (js "impact: high")))))).
  vm_compute. reflexivity.
Defined.

(** C3. The pattern built from a label list is the alternation of its bare
    words, the delimiter and the capture being attached to the last synonym
    only.  So for every input the application is non-empty only if the input
    has [system], optional white space, [:] or [=] and a value, and it is
    empty whenever the input has no such text, whatever [app:],
    [application:] or [service:] it contains; likewise the urgency needs
    [severity] and the error code needs [code]; the environment is always
    empty. *)
Theorem C3_only_last_synonym_captures (raw : jsstring) :
  (forall f, parse (get_pattern (label_text f))
             = Some (alts (removelast (labels_of f))
                          (tail_re (last (labels_of f) []))))
  /\ (truthy (app (parseInput raw)) = true ->
      valued_label_in (js "system") raw = true)
  /\ (valued_label_in (js "system") raw = false ->
      app (parseInput raw) = Some [])
  /\ (truthy (urgency (parseInput raw)) = true ->
      valued_label_in (js "severity") raw = true)
  /\ (truthy (error (parseInput raw)) = true ->
      valued_label_in (js "code") raw = true)
  /\ env (parseInput raw) = Some [].
Proof.
  assert (K : forall f, truthy (field_of f (parseInput raw)) = true ->
                        valued_label_in (tail_label f) raw = true).
  { intros f. rewrite parseInput_fields. intros H.
    apply valued_label_in_trim. apply get_valued. exact H. }
  split; [exact field_re_parse|].
  split; [exact (K Fapp)|]. split; [|split; [exact (K Furgency)|]].
  - intros H. pose proof (K Fapp) as Ka. cbn [field_of] in Ka.
    destruct (app (parseInput raw)) as [[|c t]|] eqn:E.
    + reflexivity.
    + specialize (Ka eq_refl). change (tail_label Fapp) with (js "system") in Ka.
      congruence.
    + discriminate E.
  - split; [exact (K Ferror)|].
    change (env (parseInput raw)) with (field_of Fenv (parseInput raw)).
    rewrite parseInput_fields, get_env. reflexivity.
Qed.

(** An input whose application is extracted has the [system] label. *)
Lemma C3_witness :
  valued_label_in (js "system") (js "system: Checkout") = true.
Proof.
  apply (proj1 (proj2 (C3_only_last_synonym_captures (js "system: Checkout")))).
  vm_compute. reflexivity.
Defined.

(** C4, as stated, fails: on the record of the empty input the user comment
    is not its lines joined with a single newline. *)
Lemma C4_counterexample :
  userComment (buildFrenchTemplates [] (parseInput []))
  <> join [NL] (compact (userComment_lines (parseInput []))).
Proof. vm_compute. discriminate. Qed.

(** C4, amended.  For every record the user comment is its lines (greeting,
    investigation sentence, the declared-impact line when the impact is
    present, reassurance, closing) joined with the two-character separator
    made of a space followed by a newline. *)
Theorem C4_userComment_separator ts (p : Parsed) :
  userComment (buildFrenchTemplates ts p)
  = join [32; NL]
         (if truthy (impact p)
          then [greeting; investigation_line p; impact_line p;
                reassurance; closing]
          else [greeting; investigation_line p; reassurance; closing])
  /\ userComment (buildFrenchTemplates ts p)
     = if truthy (impact p)
       then greeting ++ [32; NL] ++ investigation_line p ++ [32; NL]
            ++ impact_line p ++ [32; NL] ++ reassurance ++ [32; NL] ++ closing
       else greeting ++ [32; NL] ++ investigation_line p ++ [32; NL]
            ++ reassurance ++ [32; NL] ++ closing.
Proof.
  split; [|apply userComment_layout].
  rewrite userComment_join, userComment_lines_kept. reflexivity.
Qed.

(** C5. For every input with no recognized label (no synonym of any field,
    nor [step] or [steps], followed by optional white space and [:] or [=]),
    every scalar field is absent (the empty string, which the renderer
    tests as absent), the step list is empty and the title is the fixed
    fallback sentence ["Incident – détails à préciser"]. *)
Theorem C5_no_labels (raw : jsstring) :
  has_label recognized_labels raw = false ->
  (forall f, field_of f (parseInput raw) = Some []
             /\ truthy (field_of f (parseInput raw)) = false)
  /\ steps (parseInput raw) = Some []
  /\ forall ts, titre (buildFrenchTemplates ts (parseInput raw))
                = js "Incident – détails à préciser".
Proof.
  intros H.
  assert (F : forall f, field_of f (parseInput raw) = Some []).
  { intros f. apply field_without_label.
    apply (has_label_sub _ recognized_labels); [apply labels_recognized|exact H]. }
  split; [|split].
  - intros f. rewrite F. auto.
  - cbn [parseInput steps]. f_equal. apply parse_steps_without_label.
    apply has_label_trim.
    apply (has_label_sub _ recognized_labels);
      [apply steps_labels_recognized|exact H].
  - intros ts. pose proof (F Fapp) as Ha. pose proof (F Ferror) as He.
    pose proof (F Fimpact) as Hi. cbn [field_of] in Ha, He, Hi.
    rewrite titre_fallback; [|rewrite Ha|rewrite He|rewrite Hi]; reflexivity.
Qed.

(** A sentence without any label. *)
Lemma C5_witness :
  steps (parseInput (js "The checkout page is slow since noon")) = Some []
  /\ titre (buildFrenchTemplates [] (parseInput (js "The checkout page is slow since noon")))
     = js "Incident – détails à préciser".
Proof.
  assert (H : has_label recognized_labels
                (js "The checkout page is slow since noon") = false)
    by (vm_compute; reflexivity).
  split.
  - exact (proj1 (proj2 (C5_no_labels _ H))).
  - exact (proj2 (proj2 (C5_no_labels _ H)) []).
Defined.

(** C6. For every record, hence for every input, the rendered title has at
    most 120 code units. *)
Theorem C6_title_length ts (p : Parsed) :
  (List.length (titre (buildFrenchTemplates ts p)) <= 120)%nat
  /\ forall raw,
       (List.length (titre (buildFrenchTemplates ts (parseInput raw))) <= 120)%nat.
Proof. split; [|intros raw]; apply titre_length. Qed.

(** C7. For an input whose steps block has the numbered lines
    ["1. Restart service"] and ["2. Clear cache"], on the lines after the
    label or starting on the label's own line, the ordinals are stripped and
    the steps are ["Restart service"] then ["Clear cache"]. *)
Theorem C7_numbered_steps :
  steps (parseInput (js "steps:" ++ [NL] ++ js "1. Restart service"
                     ++ [NL] ++ js "2. Clear cache"))
  = Some [js "Restart service"; js "Clear cache"]
  /\ steps (parseInput (js "Checkout is down" ++ [NL]
                        ++ js "steps: 1. Restart service"
                        ++ [NL] ++ js "2. Clear cache"))
     = Some [js "Restart service"; js "Clear cache"]
  /\ strip_ordinal (js "1. Restart service") = js "Restart service"
  /\ strip_ordinal (js "2. Clear cache") = js "Clear cache".
Proof. repeat split; vm_compute; reflexivity. Qed.

(** C8. For every input with no steps label the step list is empty and the
    work notes contain, as a block of their own, the actions heading
    followed by the fixed line for no steps.  For every record the actions
    block is in the work notes and its list is never empty; when steps are
    present it is one line per step, the line of the step at index [i] (from
    0) being ["- Étape "], the number [i + 1], [": "] and the step text.
    The number is written in decimal: one digit below ten, and otherwise the
    digits of its tenth followed by its last digit.  So three steps give the
    lines ["- Étape 1: ..."], ["- Étape 2: ..."] and ["- Étape 3: ..."], and
    the twelfth step has the line ["- Étape 12: ..."] after eleven others. *)
Theorem C8_actions_block :
  (forall raw ts,
     has_label steps_labels raw = false ->
     steps (parseInput raw) = Some []
     /\ contains (workNotes (buildFrenchTemplates ts (parseInput raw)))
                 ([NL; NL] ++ (js "Actions réalisées:" ++ [NL]
                               ++ js "- Aucune étape fournie.") ++ [NL; NL]))
  /\ (forall ts p,
        contains (workNotes (buildFrenchTemplates ts p))
                 ([NL; NL] ++ (js "Actions réalisées:" ++ [NL] ++ steps_text p)
                  ++ [NL; NL])
        /\ steps_text p <> [])
  /\ (forall p s l,
        steps p = Some (s :: l) ->
        steps_text p = join [NL] (mapi step_line 0 (s :: l))
        /\ List.length (mapi step_line 0 (s :: l)) = List.length (s :: l)
        /\ forall i x,
             nth_error (s :: l) i = Some x ->
             nth_error (mapi step_line 0 (s :: l)) i
             = Some (js "- Étape " ++ number_to_string (i + 1) ++ js ": " ++ x))
  /\ (forall n, (n < 10)%nat -> number_to_string n = [48 + N.of_nat n])
  /\ (forall q r, (0 < q)%nat -> (r < 10)%nat ->
        number_to_string (10 * q + r)
        = number_to_string q ++ [48 + N.of_nat r])
  /\ (forall ts p a b c,
        steps p = Some [a; b; c] ->
        contains (workNotes (buildFrenchTemplates ts p))
                 ([NL; NL]
                  ++ (js "Actions réalisées:" ++ [NL]
                      ++ (js "- Étape 1: " ++ a) ++ [NL]
                      ++ (js "- Étape 2: " ++ b) ++ [NL]
                      ++ (js "- Étape 3: " ++ c))
                  ++ [NL; NL]))
  /\ (forall p l x,
        steps p = Some l -> nth_error l 11 = Some x ->
        exists before_lines after_lines,
          List.length before_lines = 11%nat
          /\ steps_text p
             = join [NL] (before_lines
                          ++ (js "- Étape 12: " ++ x) :: after_lines)).
Proof.
  split; [|split; [|split; [|split; [|split; [|split]]]]].
  - intros raw ts H.
    assert (Hs : steps (parseInput raw) = Some []).
    { cbn [parseInput steps]. f_equal. apply parse_steps_without_label.
      apply has_label_trim. exact H. }
    split; [exact Hs|].
    pose proof (workNotes_contains_actions ts (parseInput raw)) as C.
    unfold actions_block, steps_text in C. rewrite Hs in C. exact C.
  - intros ts p. split; [apply workNotes_contains_actions|].
    pose proof (steps_text_nonempty p) as Hn.
    destruct (steps_text p); [discriminate|discriminate].
  - intros p s l Hs. split; [|split].
    + unfold steps_text. rewrite Hs. reflexivity.
    + apply mapi_length.
    + intros i x Hx. rewrite (mapi_nth step_line 0 _ _ _ Hx). reflexivity.
  - exact number_to_string_digit.
  - exact number_to_string_tens.
  - intros ts p a b c Hs.
    pose proof (workNotes_contains_actions ts p) as C.
    unfold actions_block in C. rewrite (steps_text_three p a b c Hs) in C.
    exact C.
  - intros p l x Hs Hx.
    destruct (nth_error_split l 11 Hx) as (l1 & l2 & -> & Hl).
    exists (mapi step_line 0 l1), (mapi step_line 12 l2).
    split; [rewrite mapi_length; exact Hl|].
    unfold steps_text. rewrite Hs.
    assert (M : forall k (u v : list jsstring),
               mapi step_line k (u ++ v)
               = mapi step_line k u ++ mapi step_line (k + List.length u) v).
    { intros k u. revert k. induction u as [|y u IH]; intros k v.
      - cbn [List.app mapi List.length]. rewrite Nat.add_0_r. reflexivity.
      - cbn [List.app mapi List.length]. rewrite IH. do 3 f_equal. lia. }
    destruct l1 as [|y l1]; [discriminate Hl|].
    cbn [List.app]. change (y :: l1 ++ x :: l2) with ((y :: l1) ++ x :: l2).
    rewrite M, Hl. cbn [mapi Nat.add].
    rewrite (step_line_text x 11 (js "- Étape 12: ")) by (vm_compute; reflexivity).
    reflexivity.
Qed.

(** An input without a steps label. *)
Lemma C8_witness :
  steps (parseInput (js "Checkout is down")) = Some []
  /\ contains (workNotes (buildFrenchTemplates (js "01/01/2026 10:00:00")
                            (parseInput (js "Checkout is down"))))
              ([NL; NL] ++ (js "Actions réalisées:" ++ [NL]
                            ++ js "- Aucune étape fournie.") ++ [NL; NL]).
Proof.
  apply (proj1 C8_actions_block). vm_compute. reflexivity.
Defined.

(** C9. For every text, when the remote call fails ([fetch] rejects, the
    status is outside 200-299, or the body cannot be read as JSON),
    [libreTranslate] returns the offline transform of the same text and
    does not throw; selecting the remote provider then gives what selecting
    the offline provider gives. *)
Theorem C9_remote_failure_falls_back fn fetch (text endpoint : jsstring) :
  remote_failed (fetch (translate_request text endpoint)) = true ->
  libreTranslate fn fetch text endpoint
  = Returned (JString (simpleTranslate fn text))
  /\ ensureFrench fn fetch text libre endpoint
     = ensureFrench fn fetch text offline endpoint.
Proof.
  intros H. pose proof (libreTranslate_fallback fn fetch text endpoint H) as L.
  split; [exact L|]. unfold ensureFrench.
  destruct (negb (nonempty text)); [reflexivity|].
  destruct (nonempty endpoint); [exact L|reflexivity].
Qed.

(** A server answering 500: the text comes back through the glossary. *)
Lemma C9_witness :
  libreTranslate (js "function Object() { [native code] }") server_error
                 (js "Database outage") (js "https://libretranslate.example.com/")
  = Returned (JString (js "⟦Brouillon – traduction approximative⟧ base de données panne")).
Proof.
  refine (eq_trans
            (proj1 (C9_remote_failure_falls_back _ server_error _ _ _)) _).
  - reflexivity.
  - vm_compute. reflexivity.
Defined.

(** C10. The white space allowed after the delimiter includes newlines, so
    a value on the line after its label is captured: for ["impact:"], a
    newline and ["high"], the impact is ["high"]. *)
Theorem C10_value_on_next_line :
  impact (parseInput (js "impact:" ++ [NL] ++ js "high")) = Some (js "high")
  /\ impact (parseInput (js "impact =" ++ [NL; NL] ++ js "  high" ++ [NL]
                         ++ js "region: EU"))
     = Some (js "high").
Proof. split; vm_compute; reflexivity. Qed.

(** * Further properties of the code *)

(** ** Replacing matches *)

Lemma consumed_rest st st' :
  at_or_after st st' -> rest st = consumed st st' ++ rest st'.
Proof.
  intros (w & Hw). unfold consumed. rewrite Hw, firstn_consumed. reflexivity.
Qed.

Lemma m_head_forward ic r st st' l :
  m ic r st = st' :: l -> rest st = consumed st st' ++ rest st'.
Proof.
  intros E. apply consumed_rest, (m_forward ic r). rewrite E. left. reflexivity.
Qed.

Lemma exec_from_match ic r idx prev s mr :
  exec_from ic r idx prev s = Some mr ->
  (idx <= index mr)%nat
  /\ s = firstn (index mr - idx) s ++ matched mr ++ after mr.
Proof.
  revert idx prev. induction s as [|c t IH]; intros idx prev; cbn [exec_from].
  - destruct (m ic r (MState prev [] [])) as [|st' l] eqn:E; [discriminate|].
    intros [= <-]. cbn [index matched after]. split; [lia|].
    rewrite Nat.sub_diag. exact (m_head_forward _ _ _ _ _ E).
  - destruct (m ic r (MState prev (c :: t) [])) as [|st' l] eqn:E.
    + intros H. destruct (IH _ _ H) as (Hi & Ht). split; [lia|].
      replace (index mr - idx)%nat with (S (index mr - S idx)) by lia.
      cbn [firstn List.app]. f_equal. exact Ht.
    + intros [= <-]. cbn [index matched after]. split; [lia|].
      rewrite Nat.sub_diag. exact (m_head_forward _ _ _ _ _ E).
Qed.

Lemma exec_from_parts ic r prev s mr :
  exec_from ic r 0 prev s = Some mr ->
  s = firstn (index mr) s ++ matched mr ++ after mr.
Proof.
  intros H. apply exec_from_match in H. destruct H as [_ H].
  rewrite Nat.sub_0_r in H. exact H.
Qed.

(** A replacement that puts back what was matched changes nothing. *)
Lemma replace_loop_same (P : jsstring -> Prop) ic r f :
  (forall a b, P (a ++ b) -> P b) ->
  (forall prev s mr, P s -> exec_from ic r 0 prev s = Some mr ->
                     f mr = matched mr) ->
  forall fuel prev s, P s -> replace_loop fuel ic r f prev s = s.
Proof.
  intros Hsuf Hf. induction fuel as [|k IH]; intros prev s Hs; [reflexivity|].
  cbn [replace_loop].
  destruct (exec_from ic r 0 prev s) as [mr|] eqn:E; [|reflexivity].
  rewrite (Hf _ _ _ Hs E). pose proof (exec_from_parts _ _ _ _ _ E) as Hp.
  assert (Pa : P (after mr)).
  { apply (Hsuf (firstn (index mr) s ++ matched mr)).
    rewrite <- app_assoc, <- Hp. exact Hs. }
  etransitivity; [|symmetry; exact Hp]. do 2 f_equal.
  destruct (matched mr) as [|x w]; destruct (after mr) as [|c t];
    try reflexivity.
  - f_equal. apply IH. exact (Hsuf [c] t Pa).
  - apply IH. exact Pa.
  - apply IH. exact Pa.
Qed.

Lemma replace_all_same (P : jsstring -> Prop) ic r f s :
  (forall a b, P (a ++ b) -> P b) ->
  (forall prev s mr, P s -> exec_from ic r 0 prev s = Some mr ->
                     f mr = matched mr) ->
  P s -> replace_all ic r f s = s.
Proof. intros H1 H2 H3. unfold replace_all. eapply replace_loop_same; eauto. Qed.

Lemma exec_from_matched ic r idx prev s mr :
  exec_from ic r idx prev s = Some mr ->
  exists b s' st' l,
    m ic r (MState b s' []) = st' :: l
    /\ matched mr = consumed (MState b s' []) st'.
Proof.
  revert idx prev. induction s as [|c t IH]; intros idx prev; cbn [exec_from].
  - destruct (m ic r (MState prev [] [])) as [|st' l] eqn:E; [discriminate|].
    intros [= <-]. exists prev, [], st', l. auto.
  - destruct (m ic r (MState prev (c :: t) [])) as [|st' l] eqn:E.
    + apply IH.
    + intros [= <-]. exists prev, (c :: t), st', l. auto.
Qed.

Lemma in_seq ic a b st st' :
  In st' (m ic (Seq a b) st) ->
  exists st1, In st1 (m ic a st) /\ In st' (m ic b st1).
Proof. cbn [m]. intros H. apply in_flat_map in H. exact H. Qed.

Lemma in_char c st st' :
  In st' (m false (Char c) st) -> rest st = c :: rest st'.
Proof.
  cbn [m]. unfold one. destruct (rest st) as [|x t]; [intros []|].
  unfold class_has, variants. cbn [existsb item_has xorb].
  rewrite !orb_false_r. destruct (N.eqb_spec c x) as [->|]; [|intros []].
  intros [<-|[]]. reflexivity.
Qed.

Lemma in_wordb ic st st' : In st' (m ic WordB st) -> st' = st.
Proof.
  cbn [m]. unfold assert. destruct (xorb _ _); [|intros []].
  intros [<-|[]]. reflexivity.
Qed.

Lemma in_empty ic st st' : In st' (m ic Empty st) -> st' = st.
Proof. cbn [m]. intros [<-|[]]. reflexivity. Qed.

(** The word [a b c] between two word boundaries: what the passes for
    [ETA] and [SLA] look for. *)
Lemma word3_consumed a b c st st' :
  In st' (m false (Seq WordB (Seq (Char a) (Seq (Char b) (Seq (Char c)
            (Seq WordB Empty))))) st) ->
  consumed st st' = [a; b; c].
Proof.
  intros H. pose proof (consumed_rest _ _ (m_forward _ _ _ _ H)) as Hc.
  apply in_seq in H. destruct H as (s0 & H0 & H). apply in_wordb in H0. subst s0.
  apply in_seq in H. destruct H as (s1 & H1 & H). apply in_char in H1.
  apply in_seq in H. destruct H as (s2 & H2 & H). apply in_char in H2.
  apply in_seq in H. destruct H as (s3 & H3 & H). apply in_char in H3.
  apply in_seq in H. destruct H as (s4 & H4 & H). apply in_wordb in H4.
  apply in_empty in H. subst.
  rewrite H1, H2, H3 in Hc.
  change (a :: b :: c :: rest s3) with ([a; b; c] ++ rest s3) in Hc.
  apply app_inv_tail in Hc. symmetry. exact Hc.
Qed.

Lemma literal_ETA :
  literal "\bETA\b"
  = Seq WordB (Seq (Char 69) (Seq (Char 84) (Seq (Char 65) (Seq WordB Empty)))).
Proof. vm_compute. reflexivity. Qed.

Lemma literal_SLA :
  literal "\bSLA\b"
  = Seq WordB (Seq (Char 83) (Seq (Char 76) (Seq (Char 65) (Seq WordB Empty)))).
Proof. vm_compute. reflexivity. Qed.

Lemma replace_ETA s :
  replace_all false (literal "\bETA\b") (fun _ => js "ETA") s = s.
Proof.
  apply (replace_all_same (fun _ => True)); auto.
  intros prev s0 mr _ E. apply exec_from_matched in E.
  destruct E as (b & s' & st' & l & Hm & ->). rewrite literal_ETA in Hm.
  symmetry. apply (word3_consumed 69 84 65). rewrite Hm. left. reflexivity.
Qed.

Lemma replace_SLA s :
  replace_all false (literal "\bSLA\b") (fun _ => js "SLA") s = s.
Proof.
  apply (replace_all_same (fun _ => True)); auto.
  intros prev s0 mr _ E. apply exec_from_matched in E.
  destruct E as (b & s' & st' & l & Hm & ->). rewrite literal_SLA in Hm.
  symmetry. apply (word3_consumed 83 76 65). rewrite Hm. left. reflexivity.
Qed.

Lemma simpleTranslate_passes fn text :
  simpleTranslate fn text = draft_marker ++ glossary_pass fn text.
Proof.
  unfold simpleTranslate, glossary_pass, draft_marker. cbv zeta.
  rewrite replace_SLA, replace_ETA. reflexivity.
Qed.

(** ** The glossary *)

Lemma eqs_true a b : eqs a b = true -> a = b.
Proof. unfold eqs. destruct (list_eq_dec N.eq_dec a b); [auto|discriminate]. Qed.

Lemma prefixb_app k b : prefixb k (k ++ b) = true.
Proof.
  induction k as [|a k IH]; [reflexivity|]. simpl. rewrite N.eqb_refl. exact IH.
Qed.

Lemma occurs_infix a k b : occurs k (a ++ k ++ b) = true.
Proof. apply somewhere_app, prefixb_app. Qed.

Lemma own_property_key k o v :
  own_property k o = Some v -> In k (map fst o).
Proof.
  induction o as [|[k' v'] o IH]; [discriminate|]. simpl.
  destruct (eqs k' k) eqn:E; [|auto].
  intros _. left. exact (eqs_true _ _ E).
Qed.

Lemma glossary_get_key fn k v :
  glossary_get fn k = Some v -> In k (js "constructor" :: map fst GLOSSARY).
Proof.
  unfold glossary_get. destruct (own_property k GLOSSARY) as [w|] eqn:E.
  - intros _. right. exact (own_property_key _ _ _ E).
  - destruct (eqs k (js "constructor")) eqn:E2; [|discriminate].
    intros _. left. symmetry. exact (eqs_true _ _ E2).
Qed.

Lemma toLowerCase_app a b :
  toLowerCase (a ++ b) = toLowerCase a ++ toLowerCase b.
Proof. apply map_app. Qed.

Lemma glossary_pass_unchanged fn text :
  mentions_key text = false -> glossary_pass fn text = text.
Proof.
  intros H. unfold glossary_pass.
  apply (replace_all_same (fun s => exists a, text = a ++ s)).
  - intros a b (a0 & E). exists (a0 ++ a). rewrite E, app_assoc. reflexivity.
  - intros prev s mr (a0 & E) Hx.
    destruct (glossary_get fn (toLowerCase (matched mr))) as [v|] eqn:G;
      [|reflexivity].
    exfalso. apply glossary_get_key in G.
    pose proof (existsb_false _ _ _ H G) as Ho. cbv beta in Ho.
    apply exec_from_parts in Hx.
    assert (T : toLowerCase text
                = toLowerCase (a0 ++ firstn (index mr) s)
                  ++ toLowerCase (matched mr) ++ toLowerCase (after mr)).
    { rewrite <- !toLowerCase_app, <- app_assoc, <- Hx. f_equal. exact E. }
    rewrite T, occurs_infix in Ho. discriminate.
  - exists []. reflexivity.
Qed.

(** The own keys of the glossary are distinct, so the first entry with a
    key is the one the object holds. *)
Lemma GLOSSARY_keys_distinct : distinct (map fst GLOSSARY) = true.
Proof. vm_compute. reflexivity. Qed.

Lemma forallb_In {A} (f : A -> bool) l x :
  forallb f l = true -> In x l -> f x = true.
Proof. intros H Hin. rewrite forallb_forall in H. auto. Qed.

(** Every key of the glossary, alone and in either letter case, is
    replaced by its entry. *)
Lemma glossary_words fn :
  forallb (fun kv =>
             eqs (simpleTranslate fn (fst kv)) (draft_marker ++ snd kv)
             && eqs (simpleTranslate fn (toUpperCase (fst kv)))
                    (draft_marker ++ snd kv))
          GLOSSARY = true.
Proof. vm_compute. reflexivity. Qed.

(** ** The remote transform *)

Lemma libreTranslate_returns fn fetch text endpoint :
  exists v, libreTranslate fn fetch text endpoint = Returned v.
Proof.
  unfold libreTranslate, try_catch, bind, awaited.
  destruct (fetch (translate_request text endpoint)) as [res|e]; [|eauto].
  destruct (negb (ok res)).
  - destruct (res_text res); eauto.
  - destruct (res_json res); eauto.
Qed.

Lemma ensureFrench_returns fn fetch text provider endpoint :
  exists v, ensureFrench fn fetch text provider endpoint = Returned v.
Proof.
  unfold ensureFrench. destruct (negb (nonempty text)); [eauto|].
  destruct provider; [eauto|].
  destruct (nonempty endpoint); [apply libreTranslate_returns|eauto].
Qed.

Lemma libreTranslate_ok fn fetch text endpoint res data :
  fetch (translate_request text endpoint) = Returned res ->
  ok res = true -> res_json res = Some data ->
  libreTranslate fn fetch text endpoint = Returned (translated_or data text).
Proof.
  intros Hf Hok Hj. unfold libreTranslate, try_catch, bind, awaited.
  rewrite Hf, Hok, Hj. reflexivity.
Qed.

Lemma member_none k l : has_member k l = false -> member k l = None.
Proof.
  induction l as [|[k' v] l IH]; [reflexivity|]. simpl.
  intros H. apply orb_false_iff in H. destruct H as [H1 H2].
  rewrite (IH H2), H1. reflexivity.
Qed.

Lemma member_last k l v : member k (l ++ [(k, v)]) = Some v.
Proof.
  induction l as [|[k' v'] l IH]; simpl.
  - unfold eqs. destruct (list_eq_dec N.eq_dec k k); [reflexivity|congruence].
  - rewrite IH. reflexivity.
Qed.

(** ** The request *)

Lemma literal_slash_end : literal "\/$" = slash_end.
Proof. vm_compute. reflexivity. Qed.

Lemma m_slash_end prev s :
  m false slash_end (MState prev s [])
  = match s with
    | [c] => if c =? 47 then [MState (Some c) [] []] else []
    | _ => []
    end.
Proof.
  unfold slash_end. cbn [m]. unfold one. cbn [rest caps].
  destruct s as [|c t]; [reflexivity|].
  unfold class_has, variants. cbn [existsb item_has xorb].
  rewrite !orb_false_r, N.eqb_sym.
  destruct (c =? 47); [|destruct t; reflexivity].
  cbn [flat_map]. unfold assert. cbn [rest].
  destruct t; reflexivity.
Qed.

Lemma m_slash_end_long prev c x y :
  m false slash_end (MState prev (c :: x :: y) []) = [].
Proof. rewrite m_slash_end. reflexivity. Qed.

Lemma exec_from_skip ic r idx prev c t :
  m ic r (MState prev (c :: t) []) = [] ->
  exec_from ic r idx prev (c :: t) = exec_from ic r (S idx) (Some c) t.
Proof. intros H. cbn [exec_from]. rewrite H. reflexivity. Qed.

Lemma exec_slash_found e : forall idx prev,
  exec_from false slash_end idx prev (e ++ [47])
  = Some (MatchResult (idx + List.length e) [47] [] []).
Proof.
  induction e as [|c e IH]; intros idx prev.
  - cbn [List.app exec_from]. rewrite m_slash_end. cbn.
    rewrite Nat.add_0_r. reflexivity.
  - cbn [List.app]. destruct (e ++ [47]) as [|x y] eqn:E;
      [destruct e; discriminate|].
    rewrite exec_from_skip by apply m_slash_end_long. rewrite IH.
    cbn [List.length]. do 2 f_equal. lia.
Qed.

Lemma ends_with_slash_snoc e c : ends_with_slash (e ++ [c]) = (c =? 47).
Proof. unfold ends_with_slash. rewrite rev_app_distr. reflexivity. Qed.

Lemma exec_slash_none s : forall idx prev,
  ends_with_slash s = false -> exec_from false slash_end idx prev s = None.
Proof.
  induction s as [|c t IH]; intros idx prev H.
  - reflexivity.
  - destruct t as [|x y].
    + cbn [exec_from]. rewrite m_slash_end.
      change [c] with ([] ++ [c]) in H. rewrite ends_with_slash_snoc in H.
      rewrite H. reflexivity.
    + rewrite exec_from_skip by apply m_slash_end_long. apply IH.
      unfold ends_with_slash in *. cbn [rev] in *.
      destruct (rev y ++ [x]) as [|a b] eqn:E; [destruct (rev y); discriminate|].
      exact H.
Qed.

Lemma request_url text endpoint :
  url (translate_request text endpoint)
  = replace_first false slash_end (fun _ => []) endpoint ++ js "/translate".
Proof. unfold translate_request. rewrite literal_slash_end. reflexivity. Qed.

Lemma strip_slash_found e :
  replace_first false slash_end (fun _ => []) (e ++ [47]) = e.
Proof.
  unfold replace_first, exec. rewrite exec_slash_found. cbn [index after].
  rewrite app_nil_r. cbn [Nat.add].
  rewrite firstn_app, Nat.sub_diag, firstn_all. cbn [firstn]. apply app_nil_r.
Qed.

Lemma strip_slash_none s :
  ends_with_slash s = false ->
  replace_first false slash_end (fun _ => []) s = s.
Proof.
  intros H. unfold replace_first, exec. rewrite exec_slash_none by exact H.
  reflexivity.
Qed.

(** ** More on trimming *)

Lemma skip_space_fixed s : trimStart (trimStart s) = trimStart s.
Proof.
  induction s as [|c t IH]; [reflexivity|]. simpl.
  destruct (is_space c) eqn:E; [exact IH|]. simpl. rewrite E. reflexivity.
Qed.

Lemma trimStart_head c t : is_space c = false -> trimStart (c :: t) = c :: t.
Proof. intros H. simpl. rewrite H. reflexivity. Qed.

Lemma trimEnd_app_space y w :
  Forall (fun c => is_space c = true) w -> trimEnd (y ++ w) = trimEnd y.
Proof.
  intros Hw. unfold trimEnd. rewrite rev_app_distr.
  rewrite trimStart_app_space by (apply Forall_rev; exact Hw). reflexivity.
Qed.

Lemma trim_app_space_r raw w :
  Forall (fun c => is_space c = true) w -> trim (raw ++ w) = trim raw.
Proof.
  intros Hw. unfold trim. destruct (trimStart raw) as [|c t] eqn:E.
  - apply trimStart_nil_space in E.
    rewrite (trimStart_app_space _ _ E), (trimStart_all_space _ Hw).
    reflexivity.
  - rewrite (trimStart_app_keep _ w _ _ E).
    change (c :: t ++ w) with ((c :: t) ++ w). apply trimEnd_app_space, Hw.
Qed.

Lemma trim_surrounded w1 raw w2 :
  Forall (fun c => is_space c = true) w1 ->
  Forall (fun c => is_space c = true) w2 ->
  trim (w1 ++ raw ++ w2) = trim raw.
Proof.
  intros H1 H2. rewrite <- (trim_app_space_r raw w2 H2).
  unfold trim. rewrite (trimStart_app_space _ _ H1). reflexivity.
Qed.

(** Trimmed text starts and ends with a character that is not white
    space. *)
Lemma trimEnd_trimStart y :
  trimStart y = y -> trimStart (trimEnd y) = trimEnd y.
Proof.
  intros Hy. destruct (trimEnd_decompose y) as (post & E & _).
  destruct (trimEnd y) as [|c t] eqn:Et; [reflexivity|].
  apply trimStart_head. rewrite E in Hy. simpl in Hy.
  destruct (is_space c) eqn:Ec; [|reflexivity].
  exfalso. pose proof (trimStart_suffix (t ++ post)) as (pre & Hp).
  rewrite Hy in Hp. apply (f_equal (@List.length N)) in Hp.
  rewrite !length_app in Hp. cbn [List.length] in Hp.
  rewrite !length_app in Hp. lia.
Qed.

Lemma trimEnd_fixed y : trimEnd (trimEnd y) = trimEnd y.
Proof.
  unfold trimEnd. rewrite rev_involutive, skip_space_fixed. reflexivity.
Qed.

Lemma trim_idempotent s : trim (trim s) = trim s.
Proof.
  unfold trim. rewrite (trimEnd_trimStart (trimStart s)).
  - apply trimEnd_fixed.
  - apply skip_space_fixed.
Qed.

Lemma trim_sub (P : N -> Prop) v : Forall P v -> Forall P (trim v).
Proof.
  intros H. destruct (trim_decompose v) as (pre & post & E & _).
  rewrite E in H. apply Forall_app in H. destruct H as [_ H].
  apply Forall_app in H. tauto.
Qed.

Lemma parseInput_trim a b : trim a = trim b -> parseInput a = parseInput b.
Proof. intros H. unfold parseInput. rewrite H. reflexivity. Qed.

(** ** The captured value *)

Lemma group_plus_all neg items q n b s cs st' :
  (forall c, class_has true neg items c = q c) ->
  In st' (m true (Seq (Group n (Seq (Plus (Class neg items)) Empty)) Empty)
            (MState b s cs)) ->
  exists v, caps st' = (n, v) :: cs /\ Forall (fun c => q c = true) v.
Proof.
  intros Hq. rewrite (m_group_plus _ _ q) by exact Hq.
  destruct s as [|c t]; [intros []|]. destruct (q c) eqn:Ec; [|intros []].
  intros H. apply in_map_iff in H. destruct H as (st2 & <- & H).
  apply run_In in H. destruct H as (w & Ht & Hw & Hc).
  exists (c :: w). cbn [set_cap caps]. split.
  - unfold consumed. cbn [rest]. rewrite Hc, Ht.
    change (c :: w ++ rest st2) with ((c :: w) ++ rest st2).
    rewrite firstn_consumed. reflexivity.
  - constructor; assumption.
Qed.

Lemma tail_re_value l b s cs st' :
  In st' (m true (tail_re l) (MState b s cs)) ->
  exists v, caps st' = (1%nat, v) :: cs
            /\ Forall (fun c => not_newline c = true) v.
Proof.
  unfold tail_re.
  destruct (m_lit l (labelled value_re) b s cs) as (b1 & ->).
  destruct (starts_ci l s) as [r|]; [|intros []].
  destruct (m_labelled value_re b1 r cs) as (b2 & ->).
  destruct (trimStart r) as [|d r2]; [intros []|].
  destruct (is_delim d); [|intros []].
  rewrite value_re_unfold. intros H. apply in_flat_map in H.
  destruct H as ([b3 s3 cs3] & H1 & H2). apply run_In in H1.
  destruct H1 as (w & _ & _ & Hc). cbn [caps] in Hc. subst cs3.
  apply (group_plus_all _ _ not_newline) in H2; [exact H2|].
  apply class_not_newline.
Qed.

Lemma field_re_value f text v :
  group 1 (exec true (field_re f) text) = Some v ->
  Forall (fun c => not_newline c = true) v.
Proof.
  unfold group, exec.
  destruct (exec_from true (field_re f) 0 None text) as [mr|] eqn:E;
    [|discriminate].
  apply exec_from_Some in E.
  destruct E as (pre & s' & b & st' & l & Ht & Hm & Hg).
  rewrite Hg. intros Hv.
  assert (Hin : In st' (m true (field_re f) (MState b s' [])))
    by (rewrite Hm; left; reflexivity).
  apply alts_In in Hin. destruct Hin as [Hc|Hin].
  - rewrite Hc in Hv. discriminate.
  - apply tail_re_value in Hin. destruct Hin as (v' & Hc & Hn).
    rewrite Hc in Hv. simpl in Hv. injection Hv as <-. exact Hn.
Qed.

Lemma trim_nil : trim [] = [].
Proof. reflexivity. Qed.

Lemma get_one_line f text :
  Forall (fun c => not_newline c = true) (get text (label_text f)).
Proof.
  rewrite get_unfold.
  destruct (group 1 (exec true (field_re f) text)) as [v|] eqn:E.
  - apply trim_sub. exact (field_re_value _ _ _ E).
  - constructor.
Qed.

Lemma get_trimmed f text :
  trim (get text (label_text f)) = get text (label_text f).
Proof. rewrite get_unfold. apply trim_idempotent. Qed.

(** ** The single-label field *)

Lemma first_value_eq l s :
  first_value l s
  = match value_here l s with
    | Some v => Some v
    | None => match s with [] => None | _ :: t => first_value l t end
    end.
Proof. destruct s; reflexivity. Qed.

Lemma tail_re_none l raw pre s prev :
  trim raw = pre ++ s -> value_here l s = None ->
  m true (tail_re l) (MState prev s []) = [].
Proof.
  intros Ht Hv. destruct (m true (tail_re l) (MState prev s [])) as [|st' r] eqn:E;
    [reflexivity|]. exfalso.
  assert (Hin : In st' (m true (tail_re l) (MState prev s [])))
    by (rewrite E; left; reflexivity).
  apply tail_re_In in Hin.
  destruct Hin as (r2 & w & v & Ha & Hr & Hw & Hne & _).
  unfold value_here in Hv. rewrite Ha in Hv.
  destruct (trimStart r2) as [|c t] eqn:Er; [|discriminate].
  destruct (after_label_suffix _ _ _ Ha) as (mid & Hmid).
  assert (Hnil : r2 = []).
  { apply (trim_ends raw (pre ++ mid)).
    - rewrite Ht, Hmid, app_assoc. reflexivity.
    - apply trimStart_nil_space. exact Er. }
  rewrite Hnil in Hr. destruct w; [|discriminate].
  destruct v; [congruence|discriminate].
Qed.

Lemma exec_tail_first l raw : forall s idx prev pre,
  trim raw = pre ++ s ->
  group 1 (exec_from true (tail_re l) idx prev s) = first_value l s.
Proof.
  induction s as [|c t IH]; intros idx prev pre Ht; rewrite first_value_eq.
  - destruct (value_here l []) as [v|] eqn:Hv.
    + unfold value_here in Hv.
      destruct (after_label l []) as [r2|] eqn:Ha; [|discriminate].
      destruct (trimStart r2) as [|c t] eqn:Er; [discriminate|].
      injection Hv as <-.
      destruct (tail_re_head l prev [] [] r2 c t Ha Er) as (st' & l' & Hm & Hc).
      cbn [exec_from]. rewrite Hm. cbn [group groups]. rewrite Hc. reflexivity.
    + cbn [exec_from]. rewrite (tail_re_none l raw pre [] prev Ht Hv).
      reflexivity.
  - destruct (value_here l (c :: t)) as [v|] eqn:Hv.
    + unfold value_here in Hv.
      destruct (after_label l (c :: t)) as [r2|] eqn:Ha; [|discriminate].
      destruct (trimStart r2) as [|c' t'] eqn:Er; [discriminate|].
      injection Hv as <-.
      destruct (tail_re_head l prev (c :: t) [] r2 c' t' Ha Er)
        as (st' & l' & Hm & Hc).
      cbn [exec_from]. rewrite Hm. cbn [group groups]. rewrite Hc. reflexivity.
    + rewrite exec_from_skip by exact (tail_re_none l raw pre _ prev Ht Hv).
      apply (IH _ _ (pre ++ [c])). rewrite Ht, <- app_assoc. reflexivity.
Qed.

(** ** A bare synonym at the start *)

Lemma alts_bare_head ls k l b s cs r :
  In l ls -> starts_ci l s = Some r ->
  exists st' rest',
    m true (alts ls k) (MState b s cs) = st' :: rest' /\ caps st' = cs.
Proof.
  induction ls as [|l0 ls IH]; [intros []|]. intros Hin Hs. cbn [alts m].
  destruct (m_lit l0 Empty b s cs) as (b' & E). rewrite E.
  destruct (starts_ci l0 s) as [r0|] eqn:E0.
  - cbn [m List.app]. eauto.
  - destruct Hin as [->|Hin]; [congruence|].
    destruct (IH Hin Hs) as (st' & rest' & Hm & Hc). rewrite Hm.
    cbn [List.app]. eauto.
Qed.

Lemma get_bare_start f text l r :
  In l (removelast (labels_of f)) -> starts_ci l text = Some r ->
  get text (label_text f) = [].
Proof.
  intros Hin Hs. rewrite get_unfold. unfold exec, field_re.
  destruct (alts_bare_head _ (tail_re (last (labels_of f) [])) l None text [] r
              Hin Hs) as (st' & rest' & Hm & Hc).
  destruct text; cbn [exec_from]; rewrite Hm; cbn [group groups];
    rewrite Hc; reflexivity.
Qed.

Lemma exec_bare_first raw ls tail l s r : forall pre idx prev p0,
  trim raw = p0 ++ pre ++ s ->
  none_before tail pre s = true ->
  In l ls -> starts_ci l s = Some r ->
  group 1 (exec_from true (alts ls (tail_re tail)) idx prev (pre ++ s)) = None.
Proof.
  induction pre as [|c pre IH]; intros idx prev p0 Ht Hn Hin Hs.
  - cbn [List.app].
    destruct (alts_bare_head ls (tail_re tail) l prev s [] r Hin Hs)
      as (st' & rest' & Hm & Hc).
    destruct s; cbn [exec_from]; rewrite Hm; cbn [group groups];
      rewrite Hc; reflexivity.
  - cbn [none_before] in Hn.
    destruct (value_here tail ((c :: pre) ++ s)) eqn:Hv; [discriminate|].
    cbn [List.app] in *.
    destruct (m true (alts ls (tail_re tail)) (MState prev (c :: pre ++ s) []))
      as [|st' rest'] eqn:Hm.
    + rewrite exec_from_skip by exact Hm.
      apply (IH _ _ (p0 ++ [c])); auto. rewrite Ht, <- app_assoc. reflexivity.
    + cbn [exec_from]. rewrite Hm. cbn [group groups].
      assert (Hi : In st' (m true (alts ls (tail_re tail))
                             (MState prev (c :: pre ++ s) [])))
        by (rewrite Hm; left; reflexivity).
      apply alts_In in Hi. destruct Hi as [Hc|Hi].
      * rewrite Hc. reflexivity.
      * rewrite (tail_re_none tail raw p0 _ prev Ht Hv) in Hi. destruct Hi.
Qed.

Lemma get_bare_first f raw pre s l r :
  trim raw = pre ++ s ->
  none_before (tail_label f) pre s = true ->
  In l (removelast (labels_of f)) -> starts_ci l s = Some r ->
  get (trim raw) (label_text f) = [].
Proof.
  intros Ht Hn Hin Hs. rewrite get_unfold. unfold exec, field_re.
  rewrite Ht at 1.
  rewrite (exec_bare_first raw _ (last (labels_of f) []) l s r pre 0%nat None
             [] Ht Hn Hin Hs).
  reflexivity.
Qed.

(** ** The step list *)

Lemma literal_sep : literal "\n|;|•|-" = sep_re.
Proof. vm_compute. reflexivity. Qed.

Lemma m_char_false c prev x t cs :
  m false (Seq (Char c) Empty) (MState prev (x :: t) cs)
  = if x =? c then [MState (Some x) t cs] else [].
Proof.
  cbn [m]. unfold one. cbn [rest caps]. unfold class_has, variants.
  cbn [existsb item_has xorb]. rewrite !orb_false_r, N.eqb_sym.
  destruct (x =? c); reflexivity.
Qed.

Lemma m_alt ic a b st : m ic (Alt a b) st = m ic a st ++ m ic b st.
Proof. reflexivity. Qed.

Lemma m_sep prev x t cs :
  m false sep_re (MState prev (x :: t) cs)
  = if is_sep x then [MState (Some x) t cs] else [].
Proof.
  unfold sep_re. rewrite !m_alt, !m_char_false. unfold is_sep.
  destruct (N.eqb_spec x 10), (N.eqb_spec x 59), (N.eqb_spec x 8226),
    (N.eqb_spec x 45); try reflexivity; lia.
Qed.

Lemma split_loop_sep : forall s fuel prev piece,
  (2 * List.length s < fuel)%nat ->
  split_loop fuel false sep_re prev piece s = split_on is_sep piece s.
Proof.
  induction s as [|c t IH]; intros fuel prev piece Hf;
    (destruct fuel as [|k]; [simpl in Hf; lia|]).
  - reflexivity.
  - cbn [split_loop split_on]. rewrite m_sep. cbn [List.length] in Hf.
    destruct (is_sep c).
    + unfold consumed. cbn [rest List.length].
      replace (S (List.length t) - List.length t)%nat with 1%nat by lia.
      cbn [firstn]. f_equal. apply IH. lia.
    + apply IH. lia.
Qed.

Lemma split_sep s :
  split false (literal "\n|;|•|-") s = split_on is_sep [] s.
Proof.
  rewrite literal_sep. unfold split. destruct s as [|c t]; [reflexivity|].
  apply split_loop_sep. lia.
Qed.

Lemma split_on_pieces sep : forall s piece,
  Forall (fun c => sep c = false) piece ->
  Forall (Forall (fun c => sep c = false)) (split_on sep piece s).
Proof.
  induction s as [|c t IH]; intros piece Hp; cbn [split_on].
  - constructor; [apply Forall_rev; exact Hp|constructor].
  - destruct (sep c) eqn:E.
    + constructor; [apply Forall_rev; exact Hp|apply IH; constructor].
    + apply IH. constructor; assumption.
Qed.

Lemma replace_first_sub (P : N -> Prop) ic r s :
  Forall P s -> Forall P (replace_first ic r (fun _ => []) s).
Proof.
  intros H. unfold replace_first, exec.
  destruct (exec_from ic r 0 None s) as [mr|] eqn:E; [|exact H].
  apply exec_from_parts in E. rewrite E in H.
  apply Forall_app in H. destruct H as [H1 H2].
  apply Forall_app in H2. destruct H2 as [_ H2].
  cbn [List.app]. apply Forall_app. split; assumption.
Qed.

Lemma strip_ordinal_sub (P : N -> Prop) s :
  Forall P s -> Forall P (strip_ordinal s).
Proof. intros H. apply trim_sub, replace_first_sub, H. Qed.

Lemma strip_ordinal_trimmed s : trim (strip_ordinal s) = strip_ordinal s.
Proof. apply trim_idempotent. Qed.

Lemma parse_steps_clean text : Forall clean_step (parse_steps text).
Proof.
  unfold parse_steps. rewrite split_sep.
  set (block := or_empty _).
  pose proof (split_on_pieces is_sep block [] (Forall_nil _)) as Hp.
  induction (split_on is_sep [] block) as [|x l IH]; [constructor|].
  inversion Hp as [|? ? Hx Hl]; subst. cbn [map filter].
  destruct (nonempty (strip_ordinal x)) eqn:E; [|exact (IH Hl)].
  constructor; [|exact (IH Hl)]. repeat split.
  - intros C. rewrite C in E. discriminate.
  - apply strip_ordinal_trimmed.
  - apply strip_ordinal_sub. exact Hx.
Qed.

(** ** The four outputs *)

Lemma titre_nonempty ts p : nonempty (titre (buildFrenchTemplates ts p)) = true.
Proof.
  cbn [buildFrenchTemplates titre].
  destruct (nonempty (slice0 120 (join (js " ") (compact (titre_parts p)))))
    eqn:E; [exact E|reflexivity].
Qed.

Lemma workNotes_nonempty ts p :
  nonempty (workNotes (buildFrenchTemplates ts p)) = true.
Proof.
  rewrite workNotes_join, workNotes_blocks_kept. apply join_nonempty.
  reflexivity.
Qed.

Lemma userComment_nonempty ts p :
  nonempty (userComment (buildFrenchTemplates ts p)) = true.
Proof.
  rewrite userComment_join, userComment_lines_kept.
  destruct (truthy (impact p)); apply join_nonempty; reflexivity.
Qed.

Lemma workNotes_description_cut ts p :
  exists before_blocks,
    before_blocks <> []
    /\ compact (workNotes_blocks ts p (description (buildFrenchTemplates ts p)))
       = before_blocks ++ description (buildFrenchTemplates ts p)
         :: actions_block p :: [next_actions; monitoring].
Proof.
  exists (acknowledged ts :: (if truthy (user p) then [caller_line p] else [])).
  split; [discriminate|]. rewrite workNotes_blocks_kept. reflexivity.
Qed.

Lemma workNotes_end_cut ts p :
  exists before_blocks,
    before_blocks <> []
    /\ compact (workNotes_blocks ts p (description (buildFrenchTemplates ts p)))
       = before_blocks ++ [monitoring].
Proof.
  exists (acknowledged ts
          :: (if truthy (user p) then [caller_line p] else [])
             ++ [description (buildFrenchTemplates ts p); actions_block p;
                 next_actions]).
  split; [discriminate|]. rewrite workNotes_blocks_kept.
  cbn [List.app]. rewrite <- app_assoc. reflexivity.
Qed.

Lemma workNotes_start ts p :
  exists body,
    compact (workNotes_blocks ts p (description (buildFrenchTemplates ts p)))
    = acknowledged ts :: description (buildFrenchTemplates ts p) :: body
    \/ compact (workNotes_blocks ts p (description (buildFrenchTemplates ts p)))
       = acknowledged ts :: caller_line p :: body.
Proof.
  rewrite workNotes_blocks_kept. destruct (truthy (user p)); cbn [List.app]; eauto.
Qed.

Lemma build_same_fields ts p q :
  app p = app q -> env p = env q -> impact p = impact q ->
  urgency p = urgency q -> steps p = steps q -> error p = error q ->
  when p = when q -> region p = region q -> user p = user q ->
  buildFrenchTemplates ts p = buildFrenchTemplates ts q.
Proof.
  intros H1 H2 H3 H4 H5 H6 H7 H8 H9.
  unfold buildFrenchTemplates, titre_parts, description_lines,
    workNotes_blocks, userComment_lines, investigation_line, error_suffix,
    impact_line, caller_line, actions_block, steps_text.
  rewrite H1, H2, H3, H4, H5, H6, H7, H8, H9. reflexivity.
Qed.

(** ** A single word through the glossary *)

Lemma literal_word : literal "\b([A-Za-z']+)\b" = word_re.
Proof. vm_compute. reflexivity. Qed.

Lemma letter_word_char c : is_letter c = true -> word_char c = true.
Proof.
  unfold is_letter, is_upper, is_lower, word_char, class_has, variants.
  cbn [existsb item_has xorb]. intros H. rewrite !orb_false_r.
  apply orb_true_iff in H. destruct H as [H|H]; rewrite H;
    [reflexivity|apply orb_true_r].
Qed.

Lemma letter_is_word c : is_letter c = true -> is_word c = true.
Proof.
  unfold is_letter, is_word. intros H. rewrite H. reflexivity.
Qed.

Lemma last_of_cons b c t : last_of b (c :: t) = last_of (Some c) t.
Proof.
  unfold last_of. cbn [rev]. destruct (rev t); reflexivity.
Qed.

Lemma run_all p : forall s b cs,
  Forall (fun c => p c = true) s ->
  exists l, run p b s cs = MState (last_of b s) [] cs :: l.
Proof.
  induction s as [|c t IH]; intros b cs H.
  - exists []. reflexivity.
  - inversion H as [|? ? Hc Ht]; subst. cbn [run]. rewrite Hc.
    destruct (IH (Some c) cs Ht) as (l & ->). rewrite last_of_cons.
    cbn [List.app]. eauto.
Qed.

Lemma last_of_letter b s :
  s <> [] -> Forall (fun c => is_letter c = true) s ->
  exists c, last_of b s = Some c /\ is_letter c = true.
Proof.
  intros Hne H. unfold last_of. destruct (rev s) as [|c r] eqn:E.
  - apply (f_equal (@rev N)) in E. rewrite rev_involutive in E. contradiction.
  - exists c. split; [reflexivity|]. rewrite Forall_forall in H. apply H.
    apply in_rev. rewrite E. left. reflexivity.
Qed.

Lemma m_seq ic a b st : m ic (Seq a b) st = flat_map (m ic b) (m ic a st).
Proof. reflexivity. Qed.

Lemma m_wordb ic st :
  m ic WordB st = if xorb (word_before st) (word_after st) then [st] else [].
Proof. reflexivity. Qed.

Lemma m_group ic n a st :
  m ic (Group n a) st = map (set_cap n st) (m ic a st).
Proof. reflexivity. Qed.

Lemma m_plus_class ic neg items st :
  m ic (Plus (Class neg items)) st
  = flat_map (repeat (one (class_has ic neg items)))
             (one (class_has ic neg items) st).
Proof. reflexivity. Qed.

Lemma flat_map_one {A B} (f : A -> list B) x : flat_map f [x] = f x.
Proof. simpl. apply app_nil_r. Qed.

Lemma plus_class_all ic neg items b c t cs :
  Forall (fun x => class_has ic neg items x = true) (c :: t) ->
  exists l,
    m ic (Plus (Class neg items)) (MState b (c :: t) cs)
    = MState (last_of b (c :: t)) [] cs :: l.
Proof.
  intros H. inversion H as [|? ? Hc Ht]; subst.
  rewrite m_plus_class. unfold one at 2. cbn [rest caps]. rewrite Hc.
  rewrite flat_map_one, repeat_one_run. cbn [before rest caps].
  destruct (run_all _ t (Some c) cs Ht) as (l & ->).
  rewrite last_of_cons. eauto.
Qed.

Lemma flat_map_empty ic l : flat_map (m ic Empty) l = l.
Proof.
  induction l as [|x l IH]; [reflexivity|]. cbn [flat_map]. rewrite IH.
  reflexivity.
Qed.

Lemma word_match w :
  w <> [] -> Forall (fun c => is_letter c = true) w ->
  exists st' l, m false word_re (MState None w []) = st' :: l /\ rest st' = [].
Proof.
  intros Hne H. destruct w as [|c t]; [contradiction|].
  assert (Hw : Forall (fun x => class_has false false
                         [CRange 65 90; CRange 97 122; CChar 39] x = true)
                      (c :: t)).
  { eapply Forall_impl; [|exact H]. intros a Ha. exact (letter_word_char _ Ha). }
  destruct (last_of_letter None (c :: t) Hne H) as (x & Hx & Hl).
  inversion H as [|? ? Hc Ht]; subst.
  unfold word_re. rewrite m_seq, m_wordb.
  cbn [word_before word_after before rest].
  rewrite (letter_is_word _ Hc). cbn [xorb]. rewrite flat_map_one.
  rewrite m_seq, m_group, m_seq.
  destruct (plus_class_all false _ _ None c t [] Hw) as (l & ->).
  rewrite flat_map_empty. cbn [map flat_map]. rewrite m_seq, m_wordb.
  unfold set_cap, word_before, word_after. cbn [before rest]. rewrite Hx.
  rewrite (letter_is_word _ Hl). cbn [xorb flat_map List.app m].
  eexists. eexists. split; reflexivity.
Qed.

Lemma word_end prev : m false word_re (MState prev [] []) = [].
Proof.
  unfold word_re. rewrite m_seq, m_wordb.
  destruct (xorb _ _); [|reflexivity]. reflexivity.
Qed.

Lemma glossary_pass_word fn w :
  w <> [] -> Forall (fun c => is_letter c = true) w ->
  glossary_pass fn w
  = match glossary_get fn (toLowerCase w) with
    | Some v => v
    | None => w
    end.
Proof.
  intros Hne H. destruct (word_match w Hne H) as (st' & l & Hm & Hr).
  unfold glossary_pass, replace_all. rewrite literal_word.
  destruct w as [|c t]; [contradiction|].
  cbn [List.length replace_loop exec_from]. rewrite Hm.
  cbn [index matched after firstn List.app].
  assert (Hc : consumed (MState None (c :: t) []) st' = c :: t).
  { unfold consumed. cbn [rest]. rewrite Hr.
    change (List.length (@nil N)) with 0%nat.
    rewrite Nat.sub_0_r. apply firstn_all. }
  rewrite Hc, Hr. cbn [replace_loop exec_from]. rewrite word_end.
  apply app_nil_r.
Qed.

Lemma forallb_Forall {A} (f : A -> bool) l :
  forallb f l = true -> Forall (fun c => f c = true) l.
Proof.
  intros H. apply Forall_forall. intros c Hc. exact (forallb_In _ _ _ H Hc).
Qed.

(** * Further properties of the code: the theorems *)

(** X1. The passes of [simpleTranslate] for [ETA] and [SLA] put back what
    they match, so they never change any text: the result is the draft
    marker followed by the outcome of the glossary pass alone. *)
Theorem X1_eta_sla_passes_change_nothing fn (text : jsstring) :
  replace_all false (literal "\bETA\b") (fun _ => js "ETA") text = text
  /\ replace_all false (literal "\bSLA\b") (fun _ => js "SLA") text = text
  /\ simpleTranslate fn text = draft_marker ++ glossary_pass fn text.
Proof.
  split; [apply replace_ETA|]. split; [apply replace_SLA|].
  apply simpleTranslate_passes.
Qed.

(** X2. A text in which no glossary key (nor [constructor]) occurs, in any
    letter case, comes back unchanged behind the draft marker. *)
Theorem X2_text_without_glossary_words fn (text : jsstring) :
  mentions_key text = false ->
  simpleTranslate fn text = draft_marker ++ text.
Proof.
  intros H. rewrite simpleTranslate_passes, glossary_pass_unchanged by exact H.
  reflexivity.
Qed.

(** Digits, punctuation and text outside ASCII. *)
Lemma X2_witness :
  simpleTranslate [] (js "INC-0042: 3 × 500 à 14h30 ?")
  = draft_marker ++ js "INC-0042: 3 × 500 à 14h30 ?".
Proof.
  apply X2_text_without_glossary_words. vm_compute. reflexivity.
Defined.

(** X3. A text that is one word of ASCII letters is looked up in the
    glossary in lower case: it is replaced by its entry when it has one and
    kept as written otherwise.  The word [constructor], which the glossary
    object inherits, is replaced by the source text of the [Object]
    function. *)
Theorem X3_single_word_lookup fn (w : jsstring) :
  nonempty w = true -> forallb is_letter w = true ->
  simpleTranslate fn w
  = draft_marker ++ match glossary_get fn (toLowerCase w) with
                    | Some v => v
                    | None => w
                    end
  /\ simpleTranslate fn (js "Constructor") = draft_marker ++ fn.
Proof.
  intros Hn Hl.
  assert (G : forall x, x <> [] -> Forall (fun c => is_letter c = true) x ->
                simpleTranslate fn x
                = draft_marker ++ match glossary_get fn (toLowerCase x) with
                                  | Some v => v
                                  | None => x
                                  end).
  { intros x Hx Hf. rewrite simpleTranslate_passes, glossary_pass_word by assumption.
    reflexivity. }
  split.
  - apply G; [destruct w; [discriminate|discriminate]|].
    apply Forall_forall. intros c Hc. exact (forallb_In _ _ _ Hl Hc).
  - rewrite G.
    + reflexivity.
    + vm_compute. discriminate.
    + apply Forall_forall. intros c Hc.
      apply (forallb_In is_letter (js "Constructor")); [reflexivity|exact Hc].
Qed.

(** The word [OUTAGE] becomes [panne]. *)
Lemma X3_witness :
  simpleTranslate [] (js "OUTAGE") = draft_marker ++ js "panne".
Proof.
  refine (eq_trans (proj1 (X3_single_word_lookup [] (js "OUTAGE") _ _)) _);
    reflexivity.
Defined.

(** X4. Whatever the network does, [libreTranslate], [ensureFrench] and
    [generate] return: no failure of the remote call reaches the caller. *)
Theorem X4_translation_never_throws fn fetch fetches
        (text endpoint : jsstring) (provider : Provider) (fr : Rendered) :
  (exists v, libreTranslate fn fetch text endpoint = Returned v)
  /\ (exists v, ensureFrench fn fetch text provider endpoint = Returned v)
  /\ (exists o, generate fn fetches fr provider endpoint = Returned o).
Proof.
  split; [apply libreTranslate_returns|]. split; [apply ensureFrench_returns|].
  unfold generate.
  destruct (ensureFrench_returns fn (fetches 0%nat) (titre fr) provider endpoint)
    as (t1 & ->).
  destruct (ensureFrench_returns fn (fetches 1%nat) (description fr) provider
              endpoint) as (t2 & ->).
  destruct (ensureFrench_returns fn (fetches 2%nat) (workNotes fr) provider
              endpoint) as (t3 & ->).
  destruct (ensureFrench_returns fn (fetches 3%nat) (userComment fr) provider
              endpoint) as (t4 & ->).
  cbn [bind]. eauto.
Qed.

(** X5. When the server answers 2xx with JSON that has no [translatedText]
    member, [libreTranslate] returns the text it was given, as it is:
    neither translated nor marked as a draft.  When the JSON object ends
    with a [translatedText] string, that string is returned. *)
Theorem X5_success_response fn fetch (text endpoint : jsstring) res :
  fetch (translate_request text endpoint) = Returned res ->
  ok res = true ->
  (forall l, res_json res = Some (JObject l) ->
             has_member (js "translatedText") l = false ->
             libreTranslate fn fetch text endpoint = Returned (JString text))
  /\ (forall l v, res_json res
                  = Some (JObject (l ++ [(js "translatedText", JString v)])) ->
                  libreTranslate fn fetch text endpoint = Returned (JString v)).
Proof.
  intros Hf Hok. split.
  - intros l Hj Hm. rewrite (libreTranslate_ok fn fetch _ _ _ _ Hf Hok Hj).
    unfold translated_or. rewrite (member_none _ _ Hm). reflexivity.
  - intros l v Hj. rewrite (libreTranslate_ok fn fetch _ _ _ _ Hf Hok Hj).
    unfold translated_or. rewrite member_last. reflexivity.
Qed.

(** A server answering 200 with an error object. *)
Lemma X5_witness :
  libreTranslate [] (server_ok (JObject [(js "error", JString (js "quota"))]))
                 (js "Database outage") (js "https://lt.example.com")
  = Returned (JString (js "Database outage")).
Proof.
  apply (proj1 (X5_success_response [] (server_ok (JObject [(js "error", JString (js "quota"))]))
                  (js "Database outage") (js "https://lt.example.com")
                  (Response 200 None (Some (JObject [(js "error", JString (js "quota"))])))
                  eq_refl eq_refl)
               [(js "error", JString (js "quota"))] eq_refl).
  reflexivity.
Defined.

(** X6. The request goes to the endpoint followed by [/translate], one
    trailing slash of the endpoint being dropped: an endpoint and the same
    endpoint with a slash appended give the same URL. *)
Theorem X6_endpoint_trailing_slash (text e : jsstring) :
  url (translate_request text (e ++ js "/")) = e ++ js "/translate"
  /\ (ends_with_slash e = false ->
      url (translate_request text e) = e ++ js "/translate").
Proof.
  rewrite !request_url. split.
  - change (js "/") with [47]. rewrite strip_slash_found. reflexivity.
  - intros H. rewrite strip_slash_none by exact H. reflexivity.
Qed.

Lemma X6_witness :
  url (translate_request (js "outage") (js "https://lt.example.com"))
  = js "https://lt.example.com" ++ js "/translate".
Proof.
  apply (proj2 (X6_endpoint_trailing_slash (js "outage") (js "https://lt.example.com"))).
  reflexivity.
Defined.

(** X7. White space around the input does not matter: [parseInput] gives
    the same record with or without it, the summary is the trimmed input,
    and extracting from the summary gives the same record again. *)
Theorem X7_surrounding_white_space (w1 raw w2 : jsstring) :
  forallb is_space w1 = true -> forallb is_space w2 = true ->
  parseInput (w1 ++ raw ++ w2) = parseInput raw
  /\ summary (parseInput raw) = Some (trim raw)
  /\ parseInput (trim raw) = parseInput raw.
Proof.
  intros H1 H2. split; [|split].
  - apply parseInput_trim, trim_surrounded; apply forallb_Forall; assumption.
  - reflexivity.
  - apply parseInput_trim, trim_idempotent.
Qed.

Lemma X7_witness :
  parseInput ([32; NL] ++ js "impact: high" ++ [9; 32]) = parseInput (js "impact: high").
Proof.
  apply (proj1 (X7_surrounding_white_space [32; NL] (js "impact: high") [9; 32]
                  eq_refl eq_refl)).
Defined.

(** X8. Every scalar field of an extracted record is a single trimmed
    line: it holds no newline and neither starts nor ends with white
    space. *)
Theorem X8_fields_are_trimmed_lines (raw : jsstring) (f : field) :
  exists v, field_of f (parseInput raw) = Some v
            /\ ~ In NL v /\ trim v = v.
Proof.
  rewrite parseInput_fields. eexists. split; [reflexivity|]. split.
  - intros Hin. pose proof (get_one_line f (trim raw)) as H.
    rewrite Forall_forall in H. specialize (H NL Hin). discriminate.
  - apply get_trimmed.
Qed.

(** X9. Every step of an extracted record is non-empty, trimmed, and holds
    none of the separators (newline, semicolon, bullet, hyphen). *)
Theorem X9_steps_are_clean (raw : jsstring) :
  exists l, steps (parseInput raw) = Some l /\ Forall clean_step l.
Proof.
  eexists. split; [reflexivity|]. apply parse_steps_clean.
Qed.

(** X10. The impact is the value of the first place of the trimmed input
    where [impact], optional white space, [:] or [=] and a value stand:
    the rest of that line from its first character that is not white space,
    trimmed; it is empty when there is no such place. *)
Theorem X10_impact_value (raw : jsstring) :
  impact (parseInput raw)
  = Some (trim (or_empty (first_value (js "impact") (trim raw)))).
Proof.
  change (impact (parseInput raw)) with (field_of Fimpact (parseInput raw)).
  rewrite parseInput_fields, get_unfold. unfold exec.
  change (field_re Fimpact) with (tail_re (js "impact")).
  rewrite (exec_tail_first (js "impact") raw (trim raw) 0%nat None []);
    reflexivity.
Qed.

(** X11. A field with several synonyms is empty whenever one of its bare
    synonyms (all but the last) stands in the trimmed input with no valued
    label of the last synonym starting before it: the bare word is matched
    first and captures nothing, whatever follows. *)
Theorem X11_bare_synonym_first (raw pre s l : jsstring) (f : field) :
  trim raw = pre ++ s ->
  In l (removelast (labels_of f)) ->
  starts_ci l s <> None ->
  none_before (tail_label f) pre s = true ->
  field_of f (parseInput raw) = Some [].
Proof.
  intros Ht Hin Hs Hn. rewrite parseInput_fields. f_equal.
  destruct (starts_ci l s) as [r|] eqn:E; [|congruence].
  exact (get_bare_first f raw pre s l r Ht Hn Hin E).
Qed.

(** An application given as [app:] before a [system:] label is lost. *)
Lemma X11_witness :
  app (parseInput (js "Checkout app: Cart, system: Billing")) = Some [].
Proof.
  apply (X11_bare_synonym_first (js "Checkout app: Cart, system: Billing")
           (js "Checkout ") (js "app: Cart, system: Billing") (js "app") Fapp).
  - vm_compute. reflexivity.
  - left. reflexivity.
  - vm_compute. discriminate.
  - vm_compute. reflexivity.
Defined.

(** X12. None of the four outputs is ever empty, so the object exported to
    the ticketing system has no empty field, whatever the edited texts
    are; an output left empty by the user is exported as its template. *)
Theorem X12_outputs_never_empty ts (p : Parsed)
        (frTitle frDesc frWork frUser : jsstring) :
  let fr := buildFrenchTemplates ts p in
  let e := asServiceNowJSON frTitle frDesc frWork frUser fr in
  (nonempty (titre fr) = true /\ nonempty (description fr) = true
   /\ nonempty (workNotes fr) = true /\ nonempty (userComment fr) = true)
  /\ (nonempty (ServiceNowJSON.short_description e) = true
      /\ nonempty (ServiceNowJSON.description e) = true
      /\ nonempty (ServiceNowJSON.work_notes e) = true
      /\ nonempty (ServiceNowJSON.comments e) = true)
  /\ asServiceNowJSON [] [] [] [] fr
     = ServiceNowJSON.Make (titre fr) (description fr) (workNotes fr)
                           (userComment fr).
Proof.
  intros fr e.
  pose proof (titre_nonempty ts p) as H1.
  pose proof (description_nonempty ts p) as H2.
  pose proof (workNotes_nonempty ts p) as H3.
  pose proof (userComment_nonempty ts p) as H4.
  assert (O : forall a b, nonempty b = true -> nonempty (or_else a b) = true).
  { intros a b Hb. unfold or_else. destruct (nonempty a) eqn:E; assumption. }
  split; [auto|]. split; [|reflexivity].
  unfold e, asServiceNowJSON.
  cbn [ServiceNowJSON.short_description ServiceNowJSON.description
       ServiceNowJSON.work_notes ServiceNowJSON.comments].
  repeat split; apply O; assumption.
Qed.

(** X13. The work notes start with the acknowledgement line carrying the
    time stamp, end with the monitoring line, and hold the whole
    description, unchanged, as a block between two blank lines. *)
Theorem X13_workNotes_structure ts (p : Parsed) :
  let fr := buildFrenchTemplates ts p in
  (exists body, workNotes fr = acknowledged ts ++ [NL; NL] ++ body)
  /\ (exists head, workNotes fr = head ++ [NL; NL] ++ monitoring)
  /\ contains (workNotes fr) ([NL; NL] ++ description fr ++ [NL; NL]).
Proof.
  intros fr. unfold fr. rewrite workNotes_join. split; [|split].
  - destruct (workNotes_start ts p) as (body & [E|E]); rewrite E, join_cons;
      eauto.
  - destruct (workNotes_end_cut ts p) as (l1 & Hne & ->).
    destruct (join_app_cons [NL; NL] l1 monitoring [] Hne) as (pre & ->).
    exists pre. reflexivity.
  - destruct (workNotes_description_cut ts p) as (l1 & Hne & ->).
    apply join_contains. exact Hne.
Qed.

(** X14. The clock is read for the work notes only, and only for their
    first line: title, description and user comment do not depend on it,
    and the work notes of the same record at two times differ by the time
    stamp alone. *)
Theorem X14_clock_only_in_first_line ts1 ts2 (p : Parsed) :
  titre (buildFrenchTemplates ts1 p) = titre (buildFrenchTemplates ts2 p)
  /\ description (buildFrenchTemplates ts1 p)
     = description (buildFrenchTemplates ts2 p)
  /\ userComment (buildFrenchTemplates ts1 p)
     = userComment (buildFrenchTemplates ts2 p)
  /\ exists body,
       workNotes (buildFrenchTemplates ts1 p) = acknowledged ts1 ++ body
       /\ workNotes (buildFrenchTemplates ts2 p) = acknowledged ts2 ++ body.
Proof.
  split; [reflexivity|]. split; [reflexivity|]. split; [reflexivity|].
  rewrite !workNotes_join, !workNotes_blocks_kept.
  change (description (buildFrenchTemplates ts2 p))
    with (description (buildFrenchTemplates ts1 p)).
  set (d := description (buildFrenchTemplates ts1 p)).
  destruct (truthy (user p)); cbn [List.app];
    rewrite (join_cons _ (acknowledged ts1)), (join_cons _ (acknowledged ts2));
    eexists; split; reflexivity.
Qed.

(** X15. For every input the description opens with the context line made
    of the extracted application alone: the environment is never shown and
    the placeholder for a missing application is never used, so without an
    application the line reads ["Contexte: ."]. *)
Theorem X15_context_line ts (raw : jsstring) :
  exists more,
    description (buildFrenchTemplates ts (parseInput raw))
    = join [NL] ((js "Contexte: " ++ or_empty (app (parseInput raw)) ++ js ".")
                 :: more).
Proof.
  cbn [buildFrenchTemplates description]. unfold description_lines.
  assert (He : env (parseInput raw) = Some []).
  { change (env (parseInput raw)) with (field_of Fenv (parseInput raw)).
    rewrite parseInput_fields, get_env. reflexivity. }
  assert (Ha : app (parseInput raw)
               = Some (get (trim raw) (label_text Fapp))) by reflexivity.
  rewrite He, Ha. cbn [truthy or_empty List.app].
  rewrite compact_Some by reflexivity. eexists. reflexivity.
Qed.

(** X16. For every input without a recognized label the four outputs are
    fixed texts, the time stamp apart. *)
Theorem X16_label_free_outputs ts (raw : jsstring) :
  has_label recognized_labels raw = false ->
  let fr := buildFrenchTemplates ts (parseInput raw) in
  titre fr = js "Incident – détails à préciser"
  /\ description fr = js "Contexte: ."
  /\ userComment fr
     = js "Bonjour," ++ [32; NL]
       ++ js "Nous investiguons actuellement le souci signalé." ++ [32; NL]
       ++ js "Nos équipes sont mobilisées. Nous vous tiendrons informé de l'avancement."
       ++ [32; NL] ++ js "Merci de votre patience."
  /\ workNotes fr
     = (js "[" ++ ts ++ js "] Prise en charge de l'incident.") ++ [NL; NL]
       ++ js "Contexte: ." ++ [NL; NL]
       ++ js "Actions réalisées:" ++ [NL] ++ js "- Aucune étape fournie."
       ++ [NL; NL]
       ++ js "Prochaines actions: analyse des journaux, corrélation des alertes, vérification dépendances."
       ++ [NL; NL] ++ js "Surveillance continue en place.".
Proof.
  intros H fr.
  assert (F : forall f, field_of f (parseInput raw) = Some []).
  { intros f. apply field_without_label.
    apply (has_label_sub _ recognized_labels); [apply labels_recognized|exact H]. }
  assert (S : steps (parseInput raw) = Some []).
  { cbn [parseInput steps]. f_equal. apply parse_steps_without_label.
    apply has_label_trim.
    apply (has_label_sub _ recognized_labels);
      [apply steps_labels_recognized|exact H]. }
  assert (E : fr = buildFrenchTemplates ts (no_fields [])).
  { unfold fr. apply build_same_fields;
      [exact (F Fapp)|exact (F Fenv)|exact (F Fimpact)|exact (F Furgency)
      |exact S|exact (F Ferror)|exact (F Fwhen)|exact (F Fregion)
      |exact (F Fuser)]. }
  rewrite E. clear. split; [|split; [|split]]; vm_compute; reflexivity.
Qed.

Lemma X16_witness :
  description (buildFrenchTemplates [] (parseInput (js "The checkout page is slow")))
  = js "Contexte: .".
Proof.
  apply (proj1 (proj2 (X16_label_free_outputs []
                         (js "The checkout page is slow") eq_refl))).
Defined.

(** X17. With the offline provider, or without an endpoint, [generate]
    never uses the network and never takes the empty-text exit of
    [ensureFrench]: each of the four results is the offline transform of
    its template. *)
Theorem X17_generate_offline fn fetches ts (p : Parsed)
        (provider : Provider) (endpoint : jsstring) :
  provider = offline \/ endpoint = [] ->
  let fr := buildFrenchTemplates ts p in
  generate fn fetches fr provider endpoint
  = Returned (JString (simpleTranslate fn (titre fr)),
              JString (simpleTranslate fn (description fr)),
              JString (simpleTranslate fn (workNotes fr)),
              JString (simpleTranslate fn (userComment fr))).
Proof.
  intros H fr.
  assert (O : forall f text, nonempty text = true ->
                ensureFrench fn f text provider endpoint
                = Returned (JString (simpleTranslate fn text))).
  { intros f text Hn. unfold ensureFrench. rewrite Hn. cbn [negb].
    destruct H as [->| ->]; [reflexivity|]. destruct provider; reflexivity. }
  unfold generate.
  rewrite (O _ _ (titre_nonempty ts p)), (O _ _ (description_nonempty ts p)),
    (O _ _ (workNotes_nonempty ts p)), (O _ _ (userComment_nonempty ts p)).
  reflexivity.
Qed.

Lemma X17_witness :
  exists t2 t3 t4,
    generate [] (fun _ => server_error)
             (buildFrenchTemplates [] (parseInput (js "impact: high")))
             offline (js "https://lt.example.com")
    = Returned (JString (draft_marker ++ js "– impact élevée"), t2, t3, t4).
Proof.
  eexists. eexists. eexists.
  refine (eq_trans (X17_generate_offline [] (fun _ => server_error) []
                      (parseInput (js "impact: high")) offline
                      (js "https://lt.example.com") (or_introl eq_refl)) _).
  vm_compute. reflexivity.
Defined.
